(** * Mnemonikey: the recovery-phrase codec and the key descriptor

    A shallow embedding of [DecodeMnemonic], [New], [CreatedAt] and
    [EncodeMnemonic] of package [mnemonikey], with the constants of
    [parameters.go], and the properties of the phrase format proved about
    them.  [Recover] and the text layout of the command line
    ([justifyWidth] and its callers) follow, with their properties in the
    last part.

    Conventions.
    - A Go [*big.Int] is a [Z]: [Lsh], [Rsh], [And] and [Or] of [math/big]
      are [Z.shiftl], [Z.shiftr], [Z.land] and [Z.lor] (two's complement on
      negative numbers, as in Go).  The in-place updates of [EncodeMnemonic]
      are modelled a second time over a store of big integers, in module
      [Mem], to state what the method leaves untouched.
    - A [time.Time] is the instant it denotes, in nanoseconds since
      January 1 of year 1, 00:00:00 UTC (the zero [time.Time]); location and
      monotonic reading are not modelled.  A [time.Duration] is an [int64]
      count of nanoseconds, with its wrap-around written out.
    - A byte is a [Z] in [0, 256).
    - A Go panic is [None] of an [option]; a Go [error] is a value of
      [error], [nil] being the absence of one.
    - A loop that need not end runs on fuel, one unit per iteration, and
      the outcome says whether the fuel ran out; memory is not bounded. *)

From Stdlib Require Import ZArith List Lia String Ascii Bool.
From stdpp Require Import gmap strings.
Import ListNotations.
Local Open Scope Z_scope.

(** ** Errors *)

Inductive error : Type :=
| ErrInvalidChecksum
| ErrInvalidWordCount
| ErrExpiryTooEarly
| ErrCreationTooLate
| ErrCreationTooEarly
| ErrUnknownWord                      (* package mnemonic: word not in the list *)
| ErrInvalidIndex                     (* package mnemonic: index out of range *)
| ErrKeySet (msg : string)            (* opaque error of the key-set builder *)
| Wrapped (context : string) (e : error). (* fmt.Errorf("...: %w", e) *)

Inductive result (A : Type) : Type :=
| Ok (a : A)
| Err (e : error).
Arguments Ok {A} a.
Arguments Err {A} e.

(** ** Fixed-width integers of Go *)

Definition wrap_uint32 (x : Z) : Z := x mod 2 ^ 32.
Definition wrap_uint64 (x : Z) : Z := x mod 2 ^ 64.
Definition minInt64 : Z := - 2 ^ 63.
Definition maxInt64 : Z := 2 ^ 63 - 1.
(** Conversion to [int64], and the result of an [int64] operation. *)
Definition wrap_int64 (x : Z) : Z := (x + 2 ^ 63) mod 2 ^ 64 - 2 ^ 63.

(** ** package time *)

Abbreviation Duration := Z (only parsing).
Abbreviation Time := Z (only parsing).

Definition Nanosecond : Duration := 1.
Definition Second : Duration := 1000000000 * Nanosecond.

Definition zeroTime : Time := 0.
Definition IsZero (t : Time) : bool := t =? zeroTime.
Definition After (t u : Time) : bool := u <? t.
Definition Before (t u : Time) : bool := t <? u.

(** [t.Sub(u)]: the difference, saturated to the range of [Duration]. *)
Definition Sub (t u : Time) : Duration :=
  if t - u <? minInt64 then minInt64
  else if maxInt64 <? t - u then maxInt64
  else t - u.

Definition Add (t : Time) (d : Duration) : Time := t + d.

(** Product and quotient of two [Duration]s ([int64]: the product wraps,
    the quotient truncates toward zero). *)
Definition dmul (a b : Duration) : Duration := wrap_int64 (a * b).
Definition ddiv (a b : Duration) : Duration := wrap_int64 (Z.quot a b).

(** Days from January 1 of year 1 to January 1 of year [y], and
    [time.Date(y, 1, 1, 0, 0, 0, 0, time.UTC)]. *)
Definition daysBefore (y : Z) : Z :=
  let n := y - 1 in 365 * n + n / 4 - n / 100 + n / 400.
Definition DateJan1 (y : Z) : Time := daysBefore y * 86400 * Second.

(** Seconds from year 1 to the Unix epoch ([unixToInternal] of package
    time). *)
Definition unixToInternal : Z := daysBefore 1970 * 86400.

(** ** hash/crc32 *)

Definition IEEE : Z := 0xedb88320.

Definition crc_shift (c : Z) : Z :=
  if Z.testbit c 0 then Z.lxor (Z.shiftr c 1) IEEE else Z.shiftr c 1.

Definition crc_update (c : Z) (b : Z) : Z :=
  Nat.iter 8 crc_shift (Z.lxor c b).

Definition ChecksumIEEE (data : list Z) : Z :=
  Z.lxor (fold_left crc_update data 0xffffffff) 0xffffffff.

(** ** math/big *)

(** The [n] low-order bytes of [v], most significant first. *)
Fixpoint be_bytes (n : nat) (v : Z) : list Z :=
  match n with
  | O => []
  | S k => be_bytes k (v / 256) ++ [v mod 256]
  end.

(** [x.FillBytes(make([]byte, n))]: the absolute value of [x] as a
    zero-extended big-endian byte slice; panics when it does not fit. *)
Definition FillBytes (x : Z) (n : nat) : option (list Z) :=
  if Z.abs x <? 2 ^ (8 * Z.of_nat n) then Some (be_bytes n (Z.abs x)) else None.

(** [x.Uint64()]: the low 64 bits of the absolute value. *)
Definition Uint64 (x : Z) : Z := wrap_uint64 (Z.abs x).

(** [new(big.Int).SetBytes(buf)]: the big-endian value of [buf]. *)
Definition SetBytes (buf : list Z) : Z :=
  fold_left (fun acc b => acc * 256 + b) buf 0.

(** ** parameters.go *)

Definition EpochIncrement : Duration := Second.

Definition EpochStart : Time := DateJan1 2023.

Definition VersionLatest : Z := 0.
Definition VersionBitCount : Z := 2.
Definition CreationOffsetBitCount : Z := 30.
Definition ChecksumBitCount : Z := 5.
Definition EntropyBitCount : Z := 128.
Definition MnemonicSize : Z := 15.

Definition checksumMask : Z := Z.shiftl 1 ChecksumBitCount - 1.

Definition entropyMask : Z :=
  SetBytes (repeat 0xff (Z.to_nat (EntropyBitCount / 8))).

(** A constant expression of type [Duration]: Go evaluates it exactly (and
    rejects the program if it overflowed). *)
Definition MaxCreationTime : Time :=
  Add EpochStart (EpochIncrement * (Z.shiftl 1 CreationOffsetBitCount - 1)).

(** ** Seed *)

Record Seed : Type := { Value : Z }.

Definition validSeed (s : Seed) : Prop := 0 <= Value s < 2 ^ EntropyBitCount.

(** Modelled from the spec: [NewSeed] is not among the sources.  The spec
    makes a Seed "an integer in [0, 2^EntropyBitCount)" and the decoded
    seed "the remaining high-order bits (exactly EntropyBitCount bits)":
    the value is kept to [EntropyBitCount] bits with [entropyMask]. *)
Definition NewSeed (seedInt : Z) : Seed :=
  {| Value := Z.land seedInt entropyMask |}.

(** Modelled from the spec: [Seed.Bytes] is not among the sources.  The
    key-set builder takes "seedBytes: [16]byte": the seed as
    [EntropyBitCount / 8] big-endian bytes. *)
Definition Bytes (s : Seed) : list Z :=
  be_bytes (Z.to_nat (EntropyBitCount / 8)) (Value s).

(** ** Options *)

Definition SubkeyType : Type := string.
Definition SubkeyTypeEncryption : SubkeyType := "encryption"%string.
Definition SubkeyTypeAuthentication : SubkeyType := "authentication"%string.
Definition SubkeyTypeSigning : SubkeyType := "signing"%string.

(** Modelled from the spec: the declaration of [KeyOptions] is not among the
    sources.  The spec lists "expiry instant (optional), user identity
    (name + email or raw identity string), which subkeys to generate"; the
    code reads [Expiry] only, and an unset expiry is the zero [time.Time]. *)
Record KeyOptions : Type := {
  Name : string;
  Email : string;
  Expiry : Time;
  Subkeys : list SubkeyType
}.

(** [new(KeyOptions)], [&KeyOptions{}]: the zero value. *)
Definition zeroKeyOptions : KeyOptions :=
  {| Name := ""; Email := ""; Expiry := zeroTime; Subkeys := [] |}.

(** ** package mnemonic (the word codec) *)

Module mnemonic.

(** Modelled from the spec: package [mnemonic] is not among the sources.
    The per-word bit width [W]: the spec makes the word count the smallest
    [N] with [N * W >= EntropyBitCount + CreationOffsetBitCount +
    ChecksumBitCount], and [MnemonicSize] is 15, which leaves [W = 11]
    (lemma [BitsPerWord_forced]). *)
Definition BitsPerWord : Z := 11.

(** Modelled from the spec: the mask of one index, "width W bits each". *)
Definition indexMask : Z := Z.shiftl 1 BitsPerWord - 1.

(** Modelled from the spec: [encodeIndicesFromInt(value, totalBits)],
    "a sequence of WordCount index values of width W bits each
    (most-significant word first), zero-padding unused high bits". *)
Fixpoint indices_of (n : nat) (payload : Z) (acc : list Z) : list Z :=
  match n with
  | O => acc
  | S k => indices_of k (Z.shiftr payload BitsPerWord)
                      (Z.land payload indexMask :: acc)
  end.

(** Modelled from the spec: the number of indices, "zero-padded to a whole
    number of words". *)
Definition wordsFor (bitCount : Z) : nat :=
  Z.to_nat ((bitCount + BitsPerWord - 1) / BitsPerWord).

(** Modelled from the spec: [encodeIndicesFromInt(value, totalBits)], on
    [wordsFor totalBits] indices. *)
Definition EncodeToIndices (payloadInt : Z) (bitCount : Z) : list Z :=
  indices_of (wordsFor bitCount) payloadInt [].

(** Modelled from the spec: an index of "fixed per-word bit width W". *)
Definition validIndex (i : Z) : bool := (0 <=? i) && (i <? 2 ^ BitsPerWord).

(** Modelled from the spec: one more index below the bits read so far. *)
Definition pack (acc i : Z) : Z := Z.lor (Z.shiftl acc BitsPerWord) i.

(** Modelled from the spec: [decodeIndicesToInt(indices)], "reassembles
    indices into the full payload integer (inverse of step 5)".  The code
    takes an error from it; the spec names no failure, and the one input
    outside the "fixed per-word bit width W" is an index that does not fit
    [W] bits. *)
Definition DecodeIndices (indices : list Z) : result Z :=
  if forallb validIndex indices
  then Ok (fold_left pack indices 0)
  else Err ErrInvalidIndex.

(** Modelled from the spec: "case/whitespace-normalized matching"; an ASCII
    capital becomes its small letter. *)
Definition lower (c : ascii) : ascii :=
  let n := nat_of_ascii c in
  if ((65 <=? n) && (n <=? 90))%nat then ascii_of_nat (n + 32) else c.

(** Modelled from the spec: white space is space, tab, line feed and
    carriage return. *)
Definition is_space (c : ascii) : bool :=
  let n := nat_of_ascii c in
  ((n =? 32) || (n =? 9) || (n =? 10) || (n =? 13))%nat.

(** Modelled from the spec: white space before and after a word does not
    count. *)
Fixpoint trim_left (s : string) : string :=
  match s with
  | String c s' => if is_space c then trim_left s' else s
  | EmptyString => EmptyString
  end.

(** Modelled from the spec: see [trim_left]. *)
Fixpoint trim_right (s : string) : string :=
  match s with
  | EmptyString => EmptyString
  | String c s' =>
      match trim_right s' with
      | EmptyString => if is_space c then EmptyString else String c EmptyString
      | r => String c r
      end
  end.

(** Modelled from the spec: see [lower]. *)
Fixpoint lowercase (s : string) : string :=
  match s with
  | EmptyString => EmptyString
  | String c s' => String (lower c) (lowercase s')
  end.

(** Modelled from the spec: the form in which words are matched. *)
Definition normalize (s : string) : string :=
  lowercase (trim_right (trim_left s)).

(** Modelled from the spec: "each word resolvable to a unique index": no
    word occurs twice. *)
Fixpoint occurs (w : string) (l : list string) : bool :=
  match l with
  | [] => false
  | x :: l' => String.eqb x w || occurs w l'
  end.

(** Modelled from the spec: see [occurs]. *)
Fixpoint distinct (l : list string) : bool :=
  match l with
  | [] => true
  | x :: l' => negb (occurs x l') && distinct l'
  end.

Section WordList.

(** The word table is not among the sources: a parameter. *)
Variable WordList : list string.

(** Modelled from the spec: "fixed wordlist size 2^W", "each word
    resolvable to a unique index", in the form in which words are
    matched. *)
Definition wordlist_ok : bool :=
  (Z.of_nat (length WordList) =? 2 ^ BitsPerWord)
  && distinct WordList
  && forallb (fun w => String.eqb (normalize w) w) WordList.

(** Modelled from the spec: the index of a word, counting from [i]. *)
Fixpoint index_from (i : Z) (l : list string) (w : string) : option Z :=
  match l with
  | [] => None
  | x :: l' => if String.eqb x w then Some i else index_from (i + 1) l' w
  end.

(** Modelled from the spec: the index a word resolves to. *)
Definition wordIndex (w : string) : option Z :=
  index_from 0 WordList (normalize w).

(** Modelled from the spec: the word of an index. *)
Definition wordAt (i : Z) : option string :=
  if i <? 0 then None else WordList !! Z.to_nat i.

(** Modelled from the spec: [encodeIndices(indices) -> seq<Word>]; an
    index without a word is the codec's error. *)
Fixpoint EncodeToMnemonic (indices : list Z) : result (list string) :=
  match indices with
  | [] => Ok []
  | i :: rest =>
      match wordAt i with
      | None => Err ErrInvalidIndex
      | Some w =>
          match EncodeToMnemonic rest with
          | Ok ws => Ok (w :: ws)
          | Err e => Err e
          end
      end
  end.

(** Modelled from the spec: [decodeWords(words) -> seq<uint>], "fails
    with UnknownWord if any word is absent from the list". *)
Fixpoint DecodeMnemonic (words : list string) : result (list Z) :=
  match words with
  | [] => Ok []
  | w :: rest =>
      match wordIndex w with
      | None => Err ErrUnknownWord
      | Some i =>
          match DecodeMnemonic rest with
          | Ok rest' => Ok (i :: rest')
          | Err e => Err e
          end
      end
  end.

End WordList.

End mnemonic.

(** ** mnemonikey *)

Section Core.

(** The word table of package [mnemonic]. *)
Variable WordList : list string.

(** The key set of package [pgp] and its builder [derivePGPKeySet] are not
    among the sources: parameters.  The builder returns a key set or an
    error of its own, which [New] hands on unchanged. *)
Variable KeySet : Type.
Variable derivePGPKeySet : list Z -> Time -> KeyOptions -> KeySet + string.

Record Mnemonikey : Type := {
  pgpKeySet : KeySet;
  seed : Seed;
  keyCreationTime : Time
}.

(** [creation.Sub(EpochStart) / EpochIncrement], in [New] and in
    [EncodeMnemonic]. *)
Definition offsetOf (creation : Time) : Duration :=
  ddiv (Sub creation EpochStart) EpochIncrement.

(** [seed] is the Seed the pointer leads to (a nil pointer panics at
    [seed.Bytes()], after the checks); [opts] is [None] for a nil pointer. *)
Definition New (seed : Seed) (creation : Time) (opts : option KeyOptions)
  : result Mnemonikey :=
  let opts := match opts with None => zeroKeyOptions | Some o => o end in
  if negb (IsZero (Expiry opts)) && After creation (Expiry opts) then
    Err ErrExpiryTooEarly
  else if After creation MaxCreationTime then
    Err ErrCreationTooLate
  else if Before creation EpochStart then
    Err ErrCreationTooEarly
  else
    let creationOffset := offsetOf creation in
    let creation := Add EpochStart (dmul EpochIncrement creationOffset) in
    match derivePGPKeySet (Bytes seed) creation opts with
    | inr msg => Err (ErrKeySet msg)
    | inl pgpKeySet =>
        Ok {| seed := seed;
              keyCreationTime := creation;
              pgpKeySet := pgpKeySet |}
    end.

Definition CreatedAt (mnk : Mnemonikey) : Time := keyCreationTime mnk.

(** The outer [option] is [None] when [FillBytes] panics. *)
Definition EncodeMnemonic (mnk : Mnemonikey) : option (result (list string)) :=
  let creationOffset := wrap_int64 (offsetOf (keyCreationTime mnk)) in
  let payloadInt := Value (seed mnk) in
  let payloadInt := Z.shiftl payloadInt CreationOffsetBitCount in
  let payloadInt := Z.lor payloadInt creationOffset in
  let payloadBitCount := EntropyBitCount + CreationOffsetBitCount in
  match FillBytes payloadInt (Z.to_nat ((payloadBitCount + 7) / 8)) with
  | None => None
  | Some payloadBytes =>
      let checksum := Z.land checksumMask (ChecksumIEEE payloadBytes) in
      let payloadInt := Z.shiftl payloadInt ChecksumBitCount in
      let payloadInt := Z.lor payloadInt checksum in
      let indices :=
        mnemonic.EncodeToIndices payloadInt (payloadBitCount + ChecksumBitCount) in
      match mnemonic.EncodeToMnemonic WordList indices with
      | Err err => Some (Err (Wrapped "failed to encode indices to words" err))
      | Ok words => Some (Ok words)
      end
  end.

(** The three results are the named results [seed], [creation] and [err]
    of the Go function: a bare [return] hands back their current values,
    [nil] and the zero [time.Time] until they are assigned.  The outer
    [option] is [None] when [FillBytes] panics. *)
Definition DecodeMnemonic (words : list string)
  : option (option Seed * Time * option error) :=
  if negb (Z.of_nat (length words) =? MnemonicSize) then
    Some (None, zeroTime, Some ErrInvalidWordCount)
  else
    match mnemonic.DecodeMnemonic WordList words with
    | Err err => Some (None, zeroTime, Some err)
    | Ok indices =>
        match mnemonic.DecodeIndices indices with
        | Err err => Some (None, zeroTime, Some err)
        | Ok payloadInt =>
            let expectedChecksum :=
              wrap_uint32
                (Uint64 (Z.land payloadInt (Z.shiftl 1 ChecksumBitCount - 1))) in
            let payloadInt := Z.shiftr payloadInt ChecksumBitCount in
            let payloadBitCount :=
              wrap_uint64
                (mnemonic.BitsPerWord * Z.of_nat (length words) - ChecksumBitCount) in
            match FillBytes payloadInt (Z.to_nat ((payloadBitCount + 7) / 8)) with
            | None => None
            | Some payloadBytes =>
                let checksum := Z.land checksumMask (ChecksumIEEE payloadBytes) in
                if negb (checksum =? expectedChecksum) then
                  Some (None, zeroTime, Some ErrInvalidChecksum)
                else
                  let creationOffset :=
                    Uint64 (Z.land payloadInt
                                   (Z.shiftl 1 CreationOffsetBitCount - 1)) in
                  let creation :=
                    Add EpochStart (dmul (wrap_int64 creationOffset) EpochIncrement) in
                  let payloadInt := Z.shiftr payloadInt CreationOffsetBitCount in
                  Some (Some (NewSeed payloadInt), creation, None)
            end
        end
    end.

Definition Recover (words : list string) (opts : option KeyOptions)
  : option (result Mnemonikey) :=
  match DecodeMnemonic words with
  | None => None
  | Some (_, _, Some err) => Some (Err err)
  | Some (None, _, None) => None          (* nil seed: [seed.Bytes()] panics *)
  | Some (Some seed, creation, None) =>
      match New seed creation opts with
      | Err err =>
          Some (Err (Wrapped "failed to recover key from decoded mnemonic" err))
      | Ok mnk => Some (Ok mnk)
      end
  end.

End Core.

Arguments pgpKeySet {KeySet} _.
Arguments seed {KeySet} _.
Arguments keyCreationTime {KeySet} _.
Arguments CreatedAt {KeySet} _.
Arguments New {KeySet} derivePGPKeySet seed creation opts.
Arguments Recover WordList {KeySet} derivePGPKeySet words opts.
Arguments EncodeMnemonic WordList {KeySet} mnk.

(** ** [EncodeMnemonic] over a store of big integers *)

Module Mem.

Definition loc : Type := positive.

(** [type Seed struct { Value *big.Int }] *)
Record Seed : Type := { Value : loc }.

Section Store.

Variable WordList : list string.
Variable KeySet : Type.

(** [type Mnemonikey struct]: [seed] is a [*Seed]. *)
Record Mnemonikey : Type := {
  pgpKeySet : KeySet;
  seed : loc;
  keyCreationTime : Time
}.

(** The objects a pointer can reach: big integers, seeds, Mnemonikeys. *)
Record heap : Type := {
  ints : gmap loc Z;
  seeds : gmap loc Seed;
  keys : gmap loc Mnemonikey
}.

(** A computation on the heap; [None] is a panic (a [nil] or dangling
    pointer, or [FillBytes] on a value that does not fit). *)
Definition M (A : Type) : Type := heap -> option (A * heap).

Definition ret {A} (a : A) : M A := fun h => Some (a, h).

Definition bind {A B} (c : M A) (k : A -> M B) : M B :=
  fun h => match c h with
           | None => None
           | Some (a, h') => k a h'
           end.

Definition panic {A} : M A := fun _ => None.

Definition loadKey (p : loc) : M Mnemonikey :=
  fun h => match keys h !! p with Some k => Some (k, h) | None => None end.

Definition loadSeed (p : loc) : M Seed :=
  fun h => match seeds h !! p with Some s => Some (s, h) | None => None end.

Definition getInt (p : loc) : M Z :=
  fun h => match ints h !! p with Some v => Some (v, h) | None => None end.

(** The heap with the big integer at [p] set to [v]. *)
Definition store (h : heap) (p : loc) (v : Z) : heap :=
  {| ints := <[p := v]> (ints h); seeds := seeds h; keys := keys h |}.

Definition setInt (p : loc) (v : Z) : M unit :=
  fun h => match ints h !! p with
           | Some _ => Some (tt, store h p v)
           | None => None
           end.

(** [big.NewInt(v)], and [new(big.Int)] for [v = 0]: a cell of its own. *)
Definition NewInt (v : Z) : M loc :=
  fun h => let p := fresh (dom (ints h)) in Some (p, store h p v).

(** [z.Set(x)], [z.Lsh(x, n)], [z.Or(x, y)]: the receiver [z] is
    overwritten and returned. *)
Definition Set_ (z x : loc) : M loc :=
  bind (getInt x) (fun v => bind (setInt z v) (fun _ => ret z)).

Definition Lsh (z x : loc) (n : Z) : M loc :=
  bind (getInt x) (fun v => bind (setInt z (Z.shiftl v n)) (fun _ => ret z)).

Definition Or (z x y : loc) : M loc :=
  bind (getInt x) (fun v =>
  bind (getInt y) (fun w => bind (setInt z (Z.lor v w)) (fun _ => ret z))).

Definition FillBytes (x : loc) (n : nat) : M (list Z) :=
  bind (getInt x) (fun v =>
    match FillBytes v n with
    | Some buf => ret buf
    | None => panic
    end).

(** [mnemonic.EncodeToIndices] reads the integer it is given. *)
Definition EncodeToIndices (payloadInt : loc) (bitCount : Z) : M (list Z) :=
  bind (getInt payloadInt) (fun v => ret (mnemonic.EncodeToIndices v bitCount)).

Notation "'let*' x ':=' c 'in' k" := (bind c (fun x => k))
  (at level 10, x name, c at level 100, k at level 200).

Definition EncodeMnemonic (mnk : loc) : M (result (list string)) :=
  let* this := loadKey mnk in
  let creationOffset := wrap_int64 (offsetOf (keyCreationTime this)) in
  let* mnk_seed := loadSeed (seed this) in
  let* fresh_int := NewInt 0 in
  let* payloadInt := Set_ fresh_int (Value mnk_seed) in
  let* _ := Lsh payloadInt payloadInt CreationOffsetBitCount in
  let* offsetInt := NewInt creationOffset in
  let* _ := Or payloadInt payloadInt offsetInt in
  let payloadBitCount := EntropyBitCount + CreationOffsetBitCount in
  let* payloadBytes := FillBytes payloadInt (Z.to_nat ((payloadBitCount + 7) / 8)) in
  let checksum := Z.land checksumMask (ChecksumIEEE payloadBytes) in
  let* _ := Lsh payloadInt payloadInt ChecksumBitCount in
  let* checksumInt := NewInt checksum in
  let* _ := Or payloadInt payloadInt checksumInt in
  let* indices := EncodeToIndices payloadInt (payloadBitCount + ChecksumBitCount) in
  match mnemonic.EncodeToMnemonic WordList indices with
  | Err err => ret (Err (Wrapped "failed to encode indices to words" err))
  | Ok words => ret (Ok words)
  end.

(** Every object of [h] is in [h'] with the same contents. *)
Definition unchanged (h h' : heap) : Prop :=
  keys h' = keys h /\ seeds h' = seeds h /\
  forall (p : loc) (v : Z), ints h !! p = Some v -> ints h' !! p = Some v.

End Store.

Arguments ints {KeySet} _.
Arguments seeds {KeySet} _.
Arguments keys {KeySet} _.
Arguments pgpKeySet {KeySet} _.
Arguments seed {KeySet} _.
Arguments keyCreationTime {KeySet} _.
Arguments unchanged {KeySet} h h'.
Arguments store {KeySet} h p v.
Arguments EncodeMnemonic WordList {KeySet} mnk _.

End Mem.

(** ** package main: text layout for the terminal *)

Module terminal.

(** What a call comes to: a result, a panic, or a loop still running when
    the fuel is spent. *)
Inductive outcome (A : Type) : Type :=
| Returns (a : A)
| Panics
| OutOfFuel.
Arguments Returns {A} a.
Arguments Panics {A}.
Arguments OutOfFuel {A}.

Definition defaultWidth : Z := 75.
Definition defaultHeight : Z := 30.
Definition flagSetOptionDefaultIndent : Z := 8.

(** [term.GetSize(int(os.Stdin.Fd()))] is the terminal's answer: a width and
    a height, or an error ([None]). *)
Definition getTerminalSize (GetSize : option (Z * Z)) : Z * Z :=
  match GetSize with
  | None => (defaultWidth, defaultHeight)
  | Some (width, height) => (width, height)
  end.

(** [strings.Repeat(s, count)]: panics on a negative count. *)
Fixpoint repeat_string (s : string) (n : nat) : string :=
  match n with
  | O => EmptyString
  | S k => s +:+ repeat_string s k
  end.

Definition Repeat (s : string) (count : Z) : option string :=
  if count <? 0 then None else Some (repeat_string s (Z.to_nat count)).

(** [strings.Split(s, sep)] for a separator of one byte: the pieces between
    the separators, one more than there are separators. *)
Fixpoint Split (s : string) (sep : ascii) : list string :=
  match s with
  | EmptyString => [EmptyString]
  | String c rest =>
      if Ascii.eqb c sep then EmptyString :: Split rest sep
      else
        match Split rest sep with
        | [] => [String c EmptyString]
        | piece :: pieces => String c piece :: pieces
        end
  end.

(** [strings.Join(elems, sep)] *)
Fixpoint Join (elems : list string) (sep : string) : string :=
  match elems with
  | [] => EmptyString
  | [x] => x
  | x :: rest => x +:+ sep +:+ Join rest sep
  end.

Definition space : ascii := ascii_of_nat 32.
Definition newline : string := String (ascii_of_nat 10) EmptyString.

(** The inner loop of [justifyWidth]: words are added to [line] while the
    next one fits; the result is the line and the words left.  Lengths of
    Go strings fit an [int], and so do their sums here. *)
Fixpoint fill (indentString : string) (maxWidth : Z) (line : string)
  (words : list string) : string * list string :=
  match words with
  | [] => (line, [])
  | word :: rest =>
      if Z.of_nat (String.length line) + Z.of_nat (String.length word) + 1 <=? maxWidth
      then
        let line :=
          if negb (String.eqb line indentString)
          then line +:+ String space EmptyString
          else line in
        fill indentString maxWidth (line +:+ word) rest
      else (line, words)
  end.

(** The outer loop of [justifyWidth], one line per unit of fuel; [None]
    when the fuel is spent with words left. *)
Fixpoint layout (fuel : nat) (indentString : string) (maxWidth : Z)
  (words : list string) (lines : list string) : option (list string) :=
  match words with
  | [] => Some lines
  | _ :: _ =>
      match fuel with
      | O => None
      | S fuel' =>
          let (line, words') := fill indentString maxWidth indentString words in
          layout fuel' indentString maxWidth words' (lines ++ [line])
      end
  end.

(** [make([]string, 0, len(text)/(indent+width)+1)] panics on a zero
    divisor and on a negative capacity. *)
Definition justifyWidth (fuel : nat) (indent width : Z) (text : string)
  : outcome string :=
  let maxWidth := wrap_int64 (indent + width) in
  match Repeat (String space EmptyString) indent with
  | None => Panics
  | Some indentString =>
      let words := Split text space in
      if wrap_int64 (indent + width) =? 0 then Panics
      else if Z.quot (Z.of_nat (String.length text)) (wrap_int64 (indent + width)) + 1 <? 0
      then Panics
      else
        match layout fuel indentString maxWidth words [] with
        | None => OutOfFuel
        | Some lines => Returns (Join lines newline)
        end
  end.

Definition justifyTerminalWidth (fuel : nat) (GetSize : option (Z * Z))
  (indent : Z) (text : string) : outcome string :=
  let (termWidth, _) := getTerminalSize GetSize in
  let maxWidth := wrap_int64 (Z.quot (wrap_int64 (termWidth * 4)) 5) in
  justifyWidth fuel indent maxWidth text.

Definition justifyOptionDescription (fuel : nat) (GetSize : option (Z * Z))
  (description : string) : outcome string :=
  let (termWidth, _) := getTerminalSize GetSize in
  let maxWidth :=
    wrap_int64
      (Z.quot (wrap_int64 (wrap_int64 (termWidth - flagSetOptionDefaultIndent) * 4)) 5) in
  justifyWidth fuel 0 maxWidth description.

End terminal.

(** * Vocabulary of the properties *)

(** The quantized instant, as the spec writes it: the last
    [EpochIncrement] boundary at or before [creation]. *)
Definition floorTime (creation : Time) : Time :=
  EpochStart + (creation - EpochStart) / EpochIncrement * EpochIncrement.

Definition inEpoch (creation : Time) : Prop :=
  EpochStart <= creation <= MaxCreationTime.

(** The options [New] works with: a [nil] pointer stands for the zero
    value. *)
Definition optionsOrZero (opts : option KeyOptions) : KeyOptions :=
  match opts with
  | None => zeroKeyOptions
  | Some o => o
  end.

(** No expiry is set, or the requested creation time is not after it. *)
Definition expiryAllows (creation : Time) (o : KeyOptions) : Prop :=
  Expiry o = zeroTime \/ creation <= Expiry o.

(** What [New] returns once its own checks have passed: the builder's key
    set around the seed and the quantized time, or the builder's error. *)
Definition keyed {KeySet : Type}
  (derivePGPKeySet : list Z -> Time -> KeyOptions -> KeySet + string)
  (s : Seed) (quantized : Time) (o : KeyOptions) : result (Mnemonikey KeySet) :=
  match derivePGPKeySet (Bytes s) quantized o with
  | inr msg => Err (ErrKeySet msg)
  | inl ks => Ok {| pgpKeySet := ks; seed := s; keyCreationTime := quantized |}
  end.

(** [checksumMask & crc32.ChecksumIEEE(payloadBytes)] *)
Definition checksumOf (payloadBytes : list Z) : Z :=
  Z.land checksumMask (ChecksumIEEE payloadBytes).

(** The number of bytes the checksum is taken over, for a payload of
    [payloadBitCount] bits: [(payloadBitCount+7)/8]. *)
Definition byteCount (payloadBitCount : Z) : nat :=
  Z.to_nat ((payloadBitCount + 7) / 8).

Definition totalBitCount : Z :=
  EntropyBitCount + CreationOffsetBitCount + ChecksumBitCount.

(** The values [EncodeMnemonic] goes through: the creation offset, the
    unchecksummed payload, its bytes, the full payload handed to the word
    codec, and the words of a payload. *)
Definition creationOffsetOf {KeySet : Type} (mnk : Mnemonikey KeySet) : Z :=
  wrap_int64 (offsetOf (keyCreationTime mnk)).

Definition unchecksummed {KeySet : Type} (mnk : Mnemonikey KeySet) : Z :=
  Z.lor (Z.shiftl (Value (seed mnk)) CreationOffsetBitCount) (creationOffsetOf mnk).

Definition encodeBytes {KeySet : Type} (mnk : Mnemonikey KeySet) : option (list Z) :=
  FillBytes (unchecksummed mnk) (byteCount (EntropyBitCount + CreationOffsetBitCount)).

Definition fullPayload {KeySet : Type} (mnk : Mnemonikey KeySet) : option Z :=
  match encodeBytes mnk with
  | None => None
  | Some payloadBytes =>
      Some (Z.lor (Z.shiftl (unchecksummed mnk) ChecksumBitCount)
                  (checksumOf payloadBytes))
  end.

Definition phrase (WordList : list string) (payloadInt : Z) : result (list string) :=
  match
    mnemonic.EncodeToMnemonic WordList
      (mnemonic.EncodeToIndices payloadInt totalBitCount)
  with
  | Err err => Err (Wrapped "failed to encode indices to words" err)
  | Ok words => Ok words
  end.

(** A Mnemonikey as [New] makes them: a seed of [EntropyBitCount] bits and
    a creation time within the epoch. *)
Definition validKey {KeySet : Type} (mnk : Mnemonikey KeySet) : Prop :=
  validSeed (seed mnk) /\ inEpoch (keyCreationTime mnk).

(** What [DecodeMnemonic] makes of the payload integer the word codec
    reassembled and of the bytes of its upper part, written with the
    arithmetic of the bit fields. *)
Definition unpacked (payloadBytes : list Z) (payloadInt : Z)
  : option Seed * Time * option error :=
  if checksumOf payloadBytes =? payloadInt mod 32 then
    (Some (NewSeed (payloadInt / 32 / 2 ^ CreationOffsetBitCount)),
     EpochStart + (payloadInt / 32) mod 2 ^ CreationOffsetBitCount * EpochIncrement,
     None)
  else (None, zeroTime, Some ErrInvalidChecksum).

(** The Mnemonikey that the pointers of [k] lead to, as a value: [v] is the
    big integer of its seed. *)
Definition snapshot {KeySet : Type} (k : Mem.Mnemonikey KeySet) (v : Z)
  : Mnemonikey KeySet :=
  {| pgpKeySet := Mem.pgpKeySet k;
     seed := {| Value := v |};
     keyCreationTime := Mem.keyCreationTime k |}.

(** The words after the first one of a line, each behind its space. *)
Fixpoint spaced (words : list string) : string :=
  match words with
  | [] => EmptyString
  | word :: rest => String terminal.space EmptyString +:+ word +:+ spaced rest
  end.

(** The length of a Go string, as an [int]. *)
Definition len (s : string) : Z := Z.of_nat (String.length s).

(** ** A word table, a key-set builder and a Mnemonikey to run the code on *)

Module Demo.

Definition letter (d : nat) : ascii := ascii_of_nat (97 + d).

(** Three letters per word: [aaa], [aab], ..., [hpp]. *)
Definition word (i : nat) : string :=
  String (letter (i / 256))
    (String (letter ((i / 16) mod 16)) (String (letter (i mod 16)) EmptyString)).

Definition WordList : list string := map word (seq 0 2048).

(** The builder that echoes its inputs. *)
Definition KeySet : Type := (list Z * Time * KeyOptions)%type.

Definition derive (seedBytes : list Z) (creation : Time) (opts : KeyOptions)
  : KeySet + string := inl (seedBytes, creation, opts).

(** A seed, a creation time between two [EpochIncrement] boundaries, and
    the Mnemonikey [New] makes of them. *)
Definition seed0 : Seed := {| Value := 0x0123456789abcdef0123456789abcdef |}.

Definition requested : Time := EpochStart + 123456789123456789.

Definition quantized : Time := EpochStart + 123456789 * EpochIncrement.

Definition mnk : Mnemonikey KeySet :=
  {| pgpKeySet := (Bytes seed0, quantized, zeroKeyOptions);
     seed := seed0;
     keyCreationTime := quantized |}.

(** Its phrase, and the indices and the payload integer of the phrase. *)
Definition words : list string :=
  ["aac"; "cde"; "cld"; "gcg"; "fhj"; "fop"; "aaj"; "anb"; "cmp"; "ajk";
   "fog"; "hlm"; "dkn"; "hde"; "ckk"]%string.

Definition indices : list Z :=
  [2; 564; 691; 1574; 1401; 1519; 9; 209; 719; 154; 1510; 1980; 941; 1844; 682].

Definition payload : Z := 51964502660654325304495140597078826534450078378.

(** The phrase with its last word changed, and with a word that is not in
    the table. *)
Definition mistyped : list string :=
  ["aac"; "cde"; "cld"; "gcg"; "fhj"; "fop"; "aaj"; "anb"; "cmp"; "ajk";
   "fog"; "hlm"; "dkn"; "hde"; "ckl"]%string.

Definition unknown : list string :=
  ["aac"; "cde"; "cld"; "gcg"; "fhj"; "fop"; "aaj"; "anb"; "cmp"; "ajk";
   "fog"; "hlm"; "dkn"; "hde"; "zzz"]%string.

(** Options whose expiry is the requested creation time itself, and
    options that expired a nanosecond before it. *)
Definition expiresAtCreation : KeyOptions :=
  {| Name := ""; Email := ""; Expiry := requested; Subkeys := [] |}.

Definition expiredBefore : KeyOptions :=
  {| Name := ""; Email := ""; Expiry := requested - 1; Subkeys := [] |}.

(** A heap with the Mnemonikey at address 5, its seed at 3 and the big
    integer of the seed at 7. *)
Definition heap : Mem.heap KeySet :=
  {| Mem.ints := {[ 7%positive := Value seed0 ]};
     Mem.seeds := {[ 3%positive := {| Mem.Value := 7%positive |} ]};
     Mem.keys :=
       {[ 5%positive :=
            {| Mem.pgpKeySet := pgpKeySet mnk;
               Mem.seed := 3%positive;
               Mem.keyCreationTime := quantized |} ]} |}.

End Demo.

(** * Properties *)

(** ** The library functions on known values *)

Example crc_check_value :
  ChecksumIEEE [49; 50; 51; 52; 53; 54; 55; 56; 57] = 0xcbf43926.
Proof. vm_compute. reflexivity. Qed.

Example FillBytes_pads_left : FillBytes 258 4 = Some [0; 0; 1; 2].
Proof. reflexivity. Qed.

Example FillBytes_overflow : FillBytes 65536 2 = None.
Proof. reflexivity. Qed.

Example EpochStart_unix : EpochStart = (unixToInternal + 1672531200) * Second.
Proof. reflexivity. Qed.

Example MaxCreationTime_offset_fits :
  minInt64 <= EpochIncrement * (Z.shiftl 1 CreationOffsetBitCount - 1) <= maxInt64.
Proof. vm_compute. split; discriminate. Qed.

Example entropyMask_value : entropyMask = 2 ^ 128 - 1.
Proof. reflexivity. Qed.


(** ** Bit fields as arithmetic *)

Lemma land_shiftl_small (a b n : Z) :
  0 <= n -> 0 <= b < 2 ^ n -> Z.land (Z.shiftl a n) b = 0.
Proof.
  intros Hn Hb. apply Z.bits_inj'. intros m Hm.
  rewrite Z.land_spec, Z.bits_0.
  destruct (Z.lt_ge_cases m n) as [Hlt | Hge].
  - rewrite Z.shiftl_spec_low by assumption. reflexivity.
  - rewrite <- (Z.mod_small b (2 ^ n)) by assumption.
    rewrite Z.mod_pow2_bits_high by lia. apply andb_false_r.
Qed.

Lemma lor_shiftl_add (a b n : Z) :
  0 <= n -> 0 <= b < 2 ^ n -> Z.lor (Z.shiftl a n) b = a * 2 ^ n + b.
Proof.
  intros Hn Hb.
  rewrite <- Z.add_nocarry_lor by (apply land_shiftl_small; assumption).
  rewrite Z.shiftl_mul_pow2 by assumption. reflexivity.
Qed.

Lemma land_mask_mod (a n : Z) :
  0 <= n -> Z.land a (Z.shiftl 1 n - 1) = a mod 2 ^ n.
Proof.
  intros Hn. rewrite Z.shiftl_1_l, <- Z.land_ones by assumption.
  rewrite Z.ones_equiv. reflexivity.
Qed.

Lemma field_split (a b n : Z) :
  0 <= b < n -> (a * n + b) / n = a /\ (a * n + b) mod n = b.
Proof.
  intros Hb. split.
  - symmetry. apply Z.div_unique with b; lia.
  - symmetry. apply Z.mod_unique with a; lia.
Qed.

Lemma wrap_int64_id (x : Z) : minInt64 <= x <= maxInt64 -> wrap_int64 x = x.
Proof.
  unfold wrap_int64, minInt64, maxInt64. intros H.
  rewrite Z.mod_small by lia. lia.
Qed.

Lemma wrap_uint64_id (x : Z) : 0 <= x < 2 ^ 64 -> wrap_uint64 x = x.
Proof. apply Z.mod_small. Qed.

Lemma wrap_uint32_id (x : Z) : 0 <= x < 2 ^ 32 -> wrap_uint32 x = x.
Proof. apply Z.mod_small. Qed.

(** ** Time arithmetic of [New] *)

Lemma EpochStart_val : EpochStart = 63808128000000000000.
Proof. reflexivity. Qed.

Lemma MaxCreationTime_val :
  MaxCreationTime = EpochStart + (2 ^ CreationOffsetBitCount - 1) * EpochIncrement.
Proof. reflexivity. Qed.

Lemma EpochIncrement_val : EpochIncrement = 1000000000.
Proof. reflexivity. Qed.

Lemma offsetOf_inEpoch (creation : Time) :
  inEpoch creation ->
  offsetOf creation = (creation - EpochStart) / EpochIncrement /\
  0 <= offsetOf creation < 2 ^ CreationOffsetBitCount.
Proof.
  unfold inEpoch. rewrite MaxCreationTime_val, EpochStart_val, EpochIncrement_val.
  change (2 ^ CreationOffsetBitCount) with 1073741824. intros H.
  assert (Hsub : Sub creation 63808128000000000000 = creation - 63808128000000000000).
  { unfold Sub, minInt64, maxInt64.
    destruct (Z.ltb_spec (creation - 63808128000000000000) (- 2 ^ 63)); [lia |].
    destruct (Z.ltb_spec (2 ^ 63 - 1) (creation - 63808128000000000000)); [lia |].
    reflexivity. }
  unfold offsetOf, ddiv. rewrite EpochStart_val, EpochIncrement_val, Hsub.
  rewrite Z.quot_div_nonneg by lia.
  assert (0 <= (creation - 63808128000000000000) / 1000000000 < 1073741824)
    by (split; [apply Z.div_pos; lia | apply Z.div_lt_upper_bound; lia]).
  rewrite wrap_int64_id by (unfold minInt64, maxInt64; lia).
  split; [reflexivity | assumption].
Qed.

Lemma dmul_offset (off : Z) :
  0 <= off < 2 ^ CreationOffsetBitCount ->
  dmul EpochIncrement off = off * EpochIncrement /\
  dmul off EpochIncrement = off * EpochIncrement.
Proof.
  change (2 ^ CreationOffsetBitCount) with 1073741824.
  rewrite EpochIncrement_val. intros H. unfold dmul.
  rewrite !wrap_int64_id by (unfold minInt64, maxInt64; lia). lia.
Qed.

Lemma floorTime_inEpoch (creation : Time) :
  inEpoch creation -> inEpoch (floorTime creation) /\ floorTime creation <= creation.
Proof.
  unfold inEpoch, floorTime.
  rewrite MaxCreationTime_val, EpochStart_val, EpochIncrement_val.
  change (2 ^ CreationOffsetBitCount) with 1073741824. intros H.
  pose proof (Z.mul_div_le (creation - 63808128000000000000) 1000000000 ltac:(lia)).
  assert (0 <= (creation - 63808128000000000000) / 1000000000)
    by (apply Z.div_pos; lia).
  lia.
Qed.

Lemma offsetOf_floorTime (creation : Time) :
  inEpoch creation -> offsetOf (floorTime creation) = offsetOf creation.
Proof.
  intros H. destruct (floorTime_inEpoch _ H) as [Hf _].
  destruct (offsetOf_inEpoch _ Hf) as [-> _].
  destruct (offsetOf_inEpoch _ H) as [-> _].
  unfold floorTime. rewrite EpochIncrement_val.
  replace (EpochStart + (creation - EpochStart) / 1000000000 * 1000000000 - EpochStart)
    with ((creation - EpochStart) / 1000000000 * 1000000000) by lia.
  apply Z.div_mul. lia.
Qed.

(** ** Construction: the checks of [New] *)

Section Construction.

Variable KeySet : Type.
Variable derivePGPKeySet : list Z -> Time -> KeyOptions -> KeySet + string.

Lemma New_early_expiry s creation opts :
  Expiry (optionsOrZero opts) <> zeroTime ->
  Expiry (optionsOrZero opts) < creation ->
  New derivePGPKeySet s creation opts = Err ErrExpiryTooEarly.
Proof.
  intros Hset Hlt. unfold New. fold (optionsOrZero opts).
  unfold IsZero, After.
  destruct (Z.eqb_spec (Expiry (optionsOrZero opts)) zeroTime); [contradiction |].
  destruct (Z.ltb_spec (Expiry (optionsOrZero opts)) creation); [reflexivity | lia].
Qed.

Lemma New_expiry_passes s creation opts :
  expiryAllows creation (optionsOrZero opts) ->
  New derivePGPKeySet s creation opts =
    if After creation MaxCreationTime then Err ErrCreationTooLate
    else if Before creation EpochStart then Err ErrCreationTooEarly
    else keyed derivePGPKeySet s (Add EpochStart (dmul EpochIncrement (offsetOf creation)))
               (optionsOrZero opts).
Proof.
  intros Hok. unfold New. fold (optionsOrZero opts).
  assert (negb (IsZero (Expiry (optionsOrZero opts)))
          && After creation (Expiry (optionsOrZero opts)) = false) as ->.
  { unfold IsZero, After. destruct Hok as [-> | Hle].
    - reflexivity.
    - destruct (Z.ltb_spec (Expiry (optionsOrZero opts)) creation); [lia |].
      apply andb_false_r. }
  reflexivity.
Qed.

Lemma New_inEpoch s creation opts :
  inEpoch creation ->
  expiryAllows creation (optionsOrZero opts) ->
  New derivePGPKeySet s creation opts =
    keyed derivePGPKeySet s (floorTime creation) (optionsOrZero opts).
Proof.
  intros Hin Hok. rewrite New_expiry_passes by assumption.
  destruct (offsetOf_inEpoch _ Hin) as [Hoff Hrange].
  destruct (dmul_offset _ Hrange) as [Hmul _].
  rewrite Hmul, Hoff. unfold inEpoch in Hin. unfold After, Before.
  destruct (Z.ltb_spec MaxCreationTime creation); [lia |].
  destruct (Z.ltb_spec creation EpochStart); [lia |].
  reflexivity.
Qed.

Lemma New_not_expiry_error s creation opts :
  expiryAllows creation (optionsOrZero opts) ->
  New derivePGPKeySet s creation opts <> Err ErrExpiryTooEarly.
Proof.
  intros Hok. rewrite New_expiry_passes by assumption.
  destruct (After creation MaxCreationTime); [discriminate |].
  destruct (Before creation EpochStart); [discriminate |].
  unfold keyed. destruct derivePGPKeySet; discriminate.
Qed.

(** Whatever the options, a Mnemonikey that [New] returns was requested
    within the epoch and stores the seed and the quantized time. *)
Lemma New_Ok_inv s creation opts mnk :
  New derivePGPKeySet s creation opts = Ok mnk ->
  inEpoch creation /\ seed mnk = s /\ keyCreationTime mnk = floorTime creation.
Proof.
  unfold New. fold (optionsOrZero opts).
  destruct (negb _ && _); [discriminate |].
  unfold After, Before.
  destruct (Z.ltb_spec MaxCreationTime creation); [discriminate |].
  destruct (Z.ltb_spec creation EpochStart); [discriminate |].
  assert (Hin : inEpoch creation) by (unfold inEpoch; lia).
  destruct (offsetOf_inEpoch _ Hin) as [Hoff Hrange].
  destruct (dmul_offset _ Hrange) as [Hmul _].
  rewrite Hmul, Hoff.
  destruct derivePGPKeySet; [| discriminate].
  intros [= <-]. repeat split; assumption || reflexivity.
Qed.

End Construction.


(** ** The word codec *)

Module mnemonic_facts.
Import mnemonic.

Lemma validIndex_spec i : validIndex i = true <-> 0 <= i < 2 ^ BitsPerWord.
Proof. unfold validIndex. rewrite andb_true_iff, Z.leb_le, Z.ltb_lt. tauto. Qed.

Lemma pack_add acc i : validIndex i = true -> pack acc i = acc * 2048 + i.
Proof.
  intros Hi%validIndex_spec. unfold pack.
  rewrite lor_shiftl_add by (assumption || discriminate). reflexivity.
Qed.

Lemma indices_of_length n payload acc :
  length (indices_of n payload acc) = (n + length acc)%nat.
Proof.
  revert payload acc. induction n as [| n IH]; intros payload acc; simpl.
  - reflexivity.
  - rewrite IH. simpl. lia.
Qed.

Lemma land_indexMask payload :
  Z.land payload indexMask = payload mod 2048.
Proof. unfold indexMask. rewrite land_mask_mod by discriminate. reflexivity. Qed.

Lemma indices_of_valid n payload acc :
  forallb validIndex acc = true ->
  forallb validIndex (indices_of n payload acc) = true.
Proof.
  revert payload acc. induction n as [| n IH]; intros payload acc Hacc; simpl.
  - assumption.
  - apply IH. simpl. rewrite Hacc, andb_true_r.
    apply validIndex_spec. rewrite land_indexMask.
    change (2 ^ BitsPerWord) with 2048. apply Z.mod_pos_bound. lia.
Qed.

Lemma pack_indices_of n payload acc a :
  0 <= payload < 2048 ^ Z.of_nat n ->
  fold_left pack (indices_of n payload acc) a
  = fold_left pack acc (a * 2048 ^ Z.of_nat n + payload).
Proof.
  revert payload acc a. induction n as [| n IH]; intros payload acc a Hp.
  - simpl in *. f_equal. lia.
  - rewrite Nat2Z.inj_succ, Z.pow_succ_r in * by lia.
    cbn [indices_of].
    rewrite IH.
    2:{ rewrite Z.shiftr_div_pow2 by discriminate.
        change (2 ^ BitsPerWord) with 2048.
        split; [apply Z.div_pos; lia | apply Z.div_lt_upper_bound; lia]. }
    cbn [fold_left]. f_equal.
    rewrite pack_add.
    2:{ apply validIndex_spec. rewrite land_indexMask.
        change (2 ^ BitsPerWord) with 2048. apply Z.mod_pos_bound. lia. }
    rewrite land_indexMask, Z.shiftr_div_pow2 by discriminate.
    change (2 ^ BitsPerWord) with 2048.
    pose proof (Z.div_mod payload 2048 ltac:(lia)). lia.
Qed.

(** Packing is lossless on every payload of at most [W * words] bits. *)
Lemma DecodeIndices_EncodeToIndices payload bitCount :
  0 <= payload < 2048 ^ Z.of_nat (wordsFor bitCount) ->
  DecodeIndices (EncodeToIndices payload bitCount) = Ok payload.
Proof.
  intros Hp. unfold DecodeIndices, EncodeToIndices.
  rewrite indices_of_valid by reflexivity.
  f_equal.
  rewrite pack_indices_of by assumption. reflexivity.
Qed.

Lemma EncodeToIndices_length payload bitCount :
  length (EncodeToIndices payload bitCount) = wordsFor bitCount.
Proof. unfold EncodeToIndices. rewrite indices_of_length. simpl. lia. Qed.

(** A packed value has as many bits as its indices. *)
Lemma fold_pack_bound indices a :
  forallb validIndex indices = true -> 0 <= a ->
  0 <= fold_left pack indices a
  /\ fold_left pack indices a < (a + 1) * 2048 ^ Z.of_nat (length indices).
Proof.
  revert a. induction indices as [| i rest IH]; intros a Hv Ha.
  - simpl. lia.
  - simpl in Hv. apply andb_true_iff in Hv as [Hi Hrest].
    cbn [fold_left length]. rewrite pack_add by assumption.
    apply validIndex_spec in Hi. change (2 ^ BitsPerWord) with 2048 in Hi.
    destruct (IH (a * 2048 + i) Hrest ltac:(lia)) as [H0 H1].
    split; [assumption |].
    rewrite Nat2Z.inj_succ, Z.pow_succ_r by lia.
    eapply Z.lt_le_trans; [exact H1 |].
    assert (0 < 2048 ^ Z.of_nat (length rest)) by (apply Z.pow_pos_nonneg; lia).
    nia.
Qed.

Lemma DecodeIndices_bound indices payload :
  DecodeIndices indices = Ok payload ->
  0 <= payload < 2048 ^ Z.of_nat (length indices).
Proof.
  unfold DecodeIndices. destruct (forallb validIndex indices) eqn:Hv; [| discriminate].
  intros [= <-].
  destruct (fold_pack_bound indices 0 Hv ltac:(lia)) as [H0 H1]. lia.
Qed.

(** The bit width is the only one that makes 15 the smallest word count. *)
Lemma BitsPerWord_forced (w : Z) :
  (MnemonicSize * w >= EntropyBitCount + CreationOffsetBitCount + ChecksumBitCount
   /\ (MnemonicSize - 1) * w < EntropyBitCount + CreationOffsetBitCount + ChecksumBitCount)
  <-> w = BitsPerWord.
Proof.
  unfold MnemonicSize, EntropyBitCount, CreationOffsetBitCount, ChecksumBitCount,
    BitsPerWord. lia.
Qed.

Section Words.
Variable WordList : list string.

Lemma index_from_lookup (l : list string) (k : nat) (w : string) (base : Z) :
  NoDup l -> l !! k = Some w -> index_from base l w = Some (base + Z.of_nat k).
Proof.
  revert k base. induction l as [| x l IH]; intros k base Hnd Hk.
  - discriminate.
  - apply NoDup_cons in Hnd as [Hx Hnd]. destruct k as [| k]; simpl in *.
    + injection Hk as ->. rewrite String.eqb_refl. f_equal. lia.
    + destruct (String.eqb_spec x w) as [-> | _].
      * exfalso. apply Hx. eapply list_elem_of_lookup_2. exact Hk.
      * rewrite (IH k (base + 1) Hnd Hk). f_equal. lia.
Qed.

Lemma occurs_elem (w : string) (l : list string) :
  elem_of w l -> occurs w l = true.
Proof.
  induction l as [| x l IH]; intros Hw.
  - inversion Hw.
  - apply elem_of_cons in Hw as [-> | Hw]; simpl.
    + rewrite String.eqb_refl. reflexivity.
    + rewrite (IH Hw). apply orb_true_r.
Qed.

Lemma distinct_NoDup (l : list string) : distinct l = true -> NoDup l.
Proof.
  induction l as [| x l IH]; intros Hd.
  - constructor.
  - simpl in Hd. apply andb_true_iff in Hd as [Hx Hl].
    apply NoDup_cons. split; [| apply IH, Hl].
    intros Hin. rewrite (occurs_elem _ _ Hin) in Hx. discriminate.
Qed.

Lemma wordlist_ok_unpack :
  wordlist_ok WordList = true ->
  length WordList = 2048%nat /\ NoDup WordList /\
  (forall w, elem_of w WordList -> normalize w = w).
Proof.
  unfold wordlist_ok. rewrite !andb_true_iff. intros [[Hlen Hnd] Hnorm].
  apply Z.eqb_eq in Hlen. apply distinct_NoDup in Hnd.
  split; [change (2 ^ BitsPerWord) with 2048 in Hlen; lia |].
  split; [assumption |].
  intros w Hw. apply String.eqb_eq.
  rewrite forallb_forall in Hnorm. apply Hnorm, list_elem_of_In, Hw.
Qed.

Hypothesis WordList_ok : wordlist_ok WordList = true.

Lemma wordIndex_wordAt i w : wordAt WordList i = Some w -> wordIndex WordList w = Some i.
Proof.
  destruct (wordlist_ok_unpack WordList_ok) as (_ & Hnd & Hnorm).
  unfold wordAt, wordIndex. destruct (Z.ltb_spec i 0); [discriminate |].
  intros Hw. rewrite Hnorm by (eapply list_elem_of_lookup_2; exact Hw).
  rewrite (index_from_lookup _ _ _ 0 Hnd Hw). f_equal. lia.
Qed.

Lemma wordAt_valid i : validIndex i = true -> is_Some (wordAt WordList i).
Proof.
  destruct (wordlist_ok_unpack WordList_ok) as (Hlen & _ & _).
  intros Hi%validIndex_spec. change (2 ^ BitsPerWord) with 2048 in Hi.
  unfold wordAt. destruct (Z.ltb_spec i 0); [lia |].
  apply lookup_lt_is_Some. lia.
Qed.

(** Every list of [W]-bit indices has words. *)
Lemma EncodeToMnemonic_valid indices :
  forallb validIndex indices = true ->
  exists words, EncodeToMnemonic WordList indices = Ok words.
Proof.
  induction indices as [| i rest IH]; intros Hv.
  - exists []. reflexivity.
  - simpl in Hv. apply andb_true_iff in Hv as [Hi Hrest].
    destruct (wordAt_valid i Hi) as [w Hw]. destruct (IH Hrest) as [ws Hws].
    exists (w :: ws). simpl. rewrite Hw, Hws. reflexivity.
Qed.

(** The words of a list of indices decode to these indices. *)
Lemma DecodeMnemonic_EncodeToMnemonic indices words :
  EncodeToMnemonic WordList indices = Ok words ->
  DecodeMnemonic WordList words = Ok indices /\ length words = length indices.
Proof.
  revert words. induction indices as [| i rest IH]; intros words.
  - intros [= <-]. split; reflexivity.
  - simpl. destruct (wordAt WordList i) as [w |] eqn:Hw; [| discriminate].
    destruct (EncodeToMnemonic WordList rest) as [ws | e]; [| discriminate].
    intros [= <-]. destruct (IH ws eq_refl) as [Hdec Hlen].
    simpl. rewrite (wordIndex_wordAt _ _ Hw), Hdec, Hlen. split; reflexivity.
Qed.

End Words.

Lemma DecodeMnemonic_length WordList words indices :
  DecodeMnemonic WordList words = Ok indices -> length indices = length words.
Proof.
  revert indices. induction words as [| w rest IH]; intros indices.
  - intros [= <-]. reflexivity.
  - simpl. destruct (wordIndex WordList w); [| discriminate].
    destruct (DecodeMnemonic WordList rest) as [rest' |]; [| discriminate].
    intros [= <-]. simpl. f_equal. apply IH. reflexivity.
Qed.

End mnemonic_facts.

(** ** Bytes of a big integer *)

Lemma be_bytes_length n v : length (be_bytes n v) = n.
Proof.
  revert v. induction n as [| n IH]; intros v; simpl.
  - reflexivity.
  - rewrite length_app, IH. simpl. lia.
Qed.

Lemma SetBytes_snoc buf b : SetBytes (buf ++ [b]) = SetBytes buf * 256 + b.
Proof. unfold SetBytes. rewrite fold_left_app. reflexivity. Qed.

(** [be_bytes] is the big-endian representation: read back, it gives the
    value (reduced to [n] bytes). *)
Lemma SetBytes_be_bytes n v : SetBytes (be_bytes n v) = v mod 256 ^ Z.of_nat n.
Proof.
  revert v. induction n as [| n IH]; intros v.
  - simpl. rewrite Z.mod_1_r. reflexivity.
  - cbn [be_bytes]. rewrite SetBytes_snoc, IH.
    rewrite Nat2Z.inj_succ, Z.pow_succ_r by lia.
    rewrite Z.rem_mul_r by (try apply Z.pow_pos_nonneg; lia). lia.
Qed.

Lemma be_bytes_range n v : Forall (fun b => 0 <= b < 256) (be_bytes n v).
Proof.
  revert v. induction n as [| n IH]; intros v; simpl.
  - constructor.
  - apply Forall_app. split; [apply IH |].
    constructor; [apply Z.mod_pos_bound; lia | constructor].
Qed.

(** The first byte holds the bits from [8 * n] up. *)
Lemma be_bytes_head n v :
  be_bytes (S n) v = (v / 256 ^ Z.of_nat n) mod 256 :: be_bytes n v.
Proof.
  revert v. induction n as [| n IH]; intros v.
  - simpl. rewrite Z.div_1_r. reflexivity.
  - change (be_bytes (S (S n)) v) with (be_bytes (S n) (v / 256) ++ [v mod 256]).
    rewrite IH. cbn [app be_bytes].
    rewrite Nat2Z.inj_succ, Z.pow_succ_r by lia.
    rewrite Z.div_div by (try apply Z.pow_pos_nonneg; lia). reflexivity.
Qed.

Lemma FillBytes_fits x n :
  0 <= x < 256 ^ Z.of_nat n ->
  FillBytes x n = Some (be_bytes n x) /\ SetBytes (be_bytes n x) = x.
Proof.
  intros Hx. unfold FillBytes. rewrite Z.abs_eq by lia.
  replace (2 ^ (8 * Z.of_nat n)) with (256 ^ Z.of_nat n)
    by (rewrite Z.pow_mul_r by lia; reflexivity).
  destruct (Z.ltb_spec x (256 ^ Z.of_nat n)); [| lia].
  split; [reflexivity |]. rewrite SetBytes_be_bytes. apply Z.mod_small. assumption.
Qed.

(** ** The payload of [EncodeMnemonic] and of [DecodeMnemonic] *)

Section Payload.

Variable WordList : list string.
Variable KeySet : Type.
Implicit Types mnk : Mnemonikey KeySet.

Lemma EncodeMnemonic_stages mnk :
  EncodeMnemonic WordList mnk =
    match fullPayload mnk with
    | None => None
    | Some payloadInt => Some (phrase WordList payloadInt)
    end.
Proof.
  unfold EncodeMnemonic, fullPayload, encodeBytes, unchecksummed, creationOffsetOf,
    byteCount, phrase, checksumOf.
  destruct (FillBytes _ _); [| reflexivity].
  cbv zeta. destruct (mnemonic.EncodeToMnemonic _ _); reflexivity.
Qed.

Lemma checksumOf_range payloadBytes : 0 <= checksumOf payloadBytes < 32.
Proof.
  unfold checksumOf, checksumMask. rewrite Z.land_comm.
  rewrite land_mask_mod by discriminate.
  apply Z.mod_pos_bound. reflexivity.
Qed.

Lemma unchecksummed_valid mnk :
  validKey mnk ->
  creationOffsetOf mnk = (keyCreationTime mnk - EpochStart) / EpochIncrement
  /\ 0 <= creationOffsetOf mnk < 2 ^ CreationOffsetBitCount
  /\ unchecksummed mnk
     = Value (seed mnk) * 2 ^ CreationOffsetBitCount + creationOffsetOf mnk
  /\ 0 <= unchecksummed mnk < 2 ^ (EntropyBitCount + CreationOffsetBitCount).
Proof.
  intros [Hseed Hin]. destruct (offsetOf_inEpoch _ Hin) as [Hoff Hrange].
  assert (Hw : creationOffsetOf mnk = offsetOf (keyCreationTime mnk)).
  { unfold creationOffsetOf. apply wrap_int64_id.
    change (2 ^ CreationOffsetBitCount) with 1073741824 in Hrange.
    unfold minInt64, maxInt64. lia. }
  rewrite Hw, <- Hoff. split; [reflexivity |]. split; [assumption |].
  unfold unchecksummed. rewrite Hw.
  rewrite lor_shiftl_add by (assumption || discriminate).
  split; [reflexivity |].
  unfold validSeed in Hseed.
  change (2 ^ EntropyBitCount) with 340282366920938463463374607431768211456 in Hseed.
  change (2 ^ CreationOffsetBitCount) with 1073741824 in *.
  change (2 ^ (EntropyBitCount + CreationOffsetBitCount))
    with (340282366920938463463374607431768211456 * 1073741824).
  nia.
Qed.

Lemma byteCount_encode : byteCount (EntropyBitCount + CreationOffsetBitCount) = 20%nat.
Proof. reflexivity. Qed.

Lemma byteCount_decode :
  byteCount (wrap_uint64 (mnemonic.BitsPerWord * Z.of_nat 15 - ChecksumBitCount))
  = 20%nat.
Proof. reflexivity. Qed.

Lemma fullPayload_valid mnk :
  validKey mnk ->
  encodeBytes mnk = Some (be_bytes 20 (unchecksummed mnk))
  /\ fullPayload mnk
     = Some (unchecksummed mnk * 32 + checksumOf (be_bytes 20 (unchecksummed mnk)))
  /\ 0 <= unchecksummed mnk * 32 + checksumOf (be_bytes 20 (unchecksummed mnk))
     < 2 ^ (EntropyBitCount + CreationOffsetBitCount + ChecksumBitCount).
Proof.
  intros Hv. destruct (unchecksummed_valid mnk Hv) as (_ & _ & _ & Hu).
  assert (Hfit : 0 <= unchecksummed mnk < 256 ^ Z.of_nat 20).
  { change (2 ^ (EntropyBitCount + CreationOffsetBitCount))
      with 365375409332725729550921208179070754913983135744 in Hu.
    change (256 ^ Z.of_nat 20)
      with 1461501637330902918203684832716283019655932542976. lia. }
  destruct (FillBytes_fits _ _ Hfit) as [Hfill _].
  set (payloadBytes := be_bytes 20 (unchecksummed mnk)) in *.
  pose proof (checksumOf_range payloadBytes) as Hc.
  assert (Hb : encodeBytes mnk = Some payloadBytes).
  { unfold encodeBytes. rewrite byteCount_encode. exact Hfill. }
  split; [exact Hb |]. unfold fullPayload. rewrite Hb.
  rewrite lor_shiftl_add by (assumption || discriminate).
  split; [reflexivity |].
  change (2 ^ ChecksumBitCount) with 32.
  change (2 ^ (EntropyBitCount + CreationOffsetBitCount))
    with 365375409332725729550921208179070754913983135744 in Hu.
  change (2 ^ (EntropyBitCount + CreationOffsetBitCount + ChecksumBitCount))
    with (365375409332725729550921208179070754913983135744 * 32).
  lia.
Qed.

Lemma DecodeMnemonic_payload words indices payloadInt :
  length words = 15%nat ->
  mnemonic.DecodeMnemonic WordList words = Ok indices ->
  mnemonic.DecodeIndices indices = Ok payloadInt ->
  FillBytes (Z.shiftr payloadInt ChecksumBitCount) 20
    = Some (be_bytes 20 (payloadInt / 32))
  /\ DecodeMnemonic WordList words
     = Some (unpacked (be_bytes 20 (payloadInt / 32)) payloadInt).
Proof.
  intros Hlen Hwords Hidx.
  pose proof (mnemonic_facts.DecodeIndices_bound _ _ Hidx) as Hp.
  rewrite (mnemonic_facts.DecodeMnemonic_length _ _ _ Hwords), Hlen in Hp.
  change (2048 ^ Z.of_nat 15)
    with (1461501637330902918203684832716283019655932542976 * 32) in Hp.
  assert (Hshift : Z.shiftr payloadInt ChecksumBitCount = payloadInt / 32).
  { rewrite Z.shiftr_div_pow2 by discriminate. reflexivity. }
  assert (Hfit : 0 <= payloadInt / 32 < 256 ^ Z.of_nat 20).
  { change (256 ^ Z.of_nat 20)
      with 1461501637330902918203684832716283019655932542976.
    split; [apply Z.div_pos; lia | apply Z.div_lt_upper_bound; lia]. }
  destruct (FillBytes_fits _ _ Hfit) as [Hfill _].
  rewrite Hshift. split; [exact Hfill |].
  unfold DecodeMnemonic. rewrite Hlen, Hwords, Hidx.
  change (negb (Z.of_nat 15 =? MnemonicSize)) with false. cbv iota zeta.
  rewrite Hshift.
  change (Z.to_nat
            ((wrap_uint64 (mnemonic.BitsPerWord * Z.of_nat 15 - ChecksumBitCount) + 7) / 8))
    with 20%nat.
  rewrite Hfill. clear Hfill. generalize (be_bytes 20 (payloadInt / 32)) as payloadBytes.
  intros payloadBytes.
  assert (Hexp : wrap_uint32 (Uint64 (Z.land payloadInt (Z.shiftl 1 ChecksumBitCount - 1)))
                 = payloadInt mod 32).
  { rewrite land_mask_mod by discriminate. change (2 ^ ChecksumBitCount) with 32.
    pose proof (Z.mod_pos_bound payloadInt 32 ltac:(lia)).
    unfold Uint64. rewrite Z.abs_eq by lia.
    rewrite wrap_uint64_id by (change (2 ^ 64) with 18446744073709551616; lia).
    apply wrap_uint32_id. change (2 ^ 32) with 4294967296. lia. }
  rewrite Hexp. unfold unpacked, checksumOf.
  destruct (Z.land checksumMask (ChecksumIEEE payloadBytes) =? payloadInt mod 32);
    [| reflexivity].
  cbn [negb]. cbv iota.
  rewrite land_mask_mod by discriminate.
  pose proof (Z.mod_pos_bound (payloadInt / 32) (2 ^ CreationOffsetBitCount) eq_refl) as Hoff.
  set (off := (payloadInt / 32) mod 2 ^ CreationOffsetBitCount) in *.
  assert (Hoff' : 0 <= off < 1073741824) by exact Hoff.
  unfold Uint64. rewrite Z.abs_eq by lia.
  rewrite wrap_uint64_id by (change (2 ^ 64) with 18446744073709551616; lia).
  rewrite wrap_int64_id by (unfold minInt64, maxInt64; lia).
  destruct (dmul_offset _ Hoff) as [_ ->].
  rewrite Z.shiftr_div_pow2 by discriminate. reflexivity.
Qed.

End Payload.

Arguments unchecksummed_valid {KeySet} mnk _.
Arguments fullPayload_valid {KeySet} mnk _.
Arguments EncodeMnemonic_stages WordList {KeySet} mnk.

(** ** Round trip *)

Section RoundTrip.

Variable WordList : list string.
Hypothesis WordList_ok : mnemonic.wordlist_ok WordList = true.
Variable KeySet : Type.
Implicit Types mnk : Mnemonikey KeySet.

Lemma wordsFor_total : mnemonic.wordsFor totalBitCount = 15%nat.
Proof. reflexivity. Qed.

(** A payload of at most 163 bits becomes 15 words, which the word codec
    takes back to the same payload. *)
Lemma phrase_valid payloadInt :
  0 <= payloadInt < 2 ^ totalBitCount ->
  exists words,
    phrase WordList payloadInt = Ok words
    /\ length words = 15%nat
    /\ mnemonic.DecodeMnemonic WordList words
       = Ok (mnemonic.EncodeToIndices payloadInt totalBitCount)
    /\ mnemonic.DecodeIndices (mnemonic.EncodeToIndices payloadInt totalBitCount)
       = Ok payloadInt.
Proof.
  intros Hp. unfold phrase.
  destruct (mnemonic_facts.EncodeToMnemonic_valid WordList WordList_ok
              (mnemonic.EncodeToIndices payloadInt totalBitCount)) as [words Hwords].
  { apply mnemonic_facts.indices_of_valid. reflexivity. }
  destruct (mnemonic_facts.DecodeMnemonic_EncodeToMnemonic WordList WordList_ok _ _ Hwords)
    as [Hdec Hlen].
  exists words. rewrite Hwords. split; [reflexivity |].
  split; [rewrite Hlen; apply mnemonic_facts.EncodeToIndices_length |].
  split; [assumption |].
  apply mnemonic_facts.DecodeIndices_EncodeToIndices. rewrite wordsFor_total.
  change (2 ^ totalBitCount)
    with 11692013098647223345629478661730264157247460343808 in Hp.
  change (2048 ^ Z.of_nat 15)
    with (11692013098647223345629478661730264157247460343808 * 4). lia.
Qed.

Lemma NewSeed_valid s : validSeed s -> NewSeed (Value s) = s.
Proof.
  intros Hs. destruct s as [v]. unfold NewSeed, validSeed in *. simpl in *. f_equal.
  change entropyMask with (Z.ones 128). rewrite Z.land_ones by lia.
  apply Z.mod_small. exact Hs.
Qed.

(** Decoding the phrase of a valid Mnemonikey gives its seed and its
    creation time, quantized. *)
Lemma roundtrip_valid mnk :
  validKey mnk ->
  exists words,
    EncodeMnemonic WordList mnk = Some (Ok words)
    /\ length words = 15%nat
    /\ DecodeMnemonic WordList words
       = Some (Some (seed mnk), floorTime (keyCreationTime mnk), None).
Proof.
  intros Hv.
  destruct (unchecksummed_valid mnk Hv) as (Hoff & Hoffr & Hu & _).
  destruct (fullPayload_valid mnk Hv) as (_ & Hfull & Hrange).
  pose proof (checksumOf_range (be_bytes 20 (unchecksummed mnk))) as Hc.
  remember (checksumOf (be_bytes 20 (unchecksummed mnk))) as c eqn:Ec.
  remember (unchecksummed mnk) as u eqn:Eu.
  destruct (phrase_valid (u * 32 + c) Hrange) as (words & Hph & Hlen & Hdec & Hidx).
  exists words. rewrite EncodeMnemonic_stages, Hfull, Hph.
  split; [reflexivity |]. split; [assumption |].
  destruct (DecodeMnemonic_payload WordList _ _ _ Hlen Hdec Hidx) as [_ ->].
  destruct (field_split u c 32 Hc) as [Hdiv Hmod].
  rewrite Hdiv. revert Ec. generalize (be_bytes 20 u) as payloadBytes.
  intros payloadBytes Ec.
  unfold unpacked. rewrite Hdiv, Hmod, <- Ec, Z.eqb_refl.
  destruct Hv as [Hseed _].
  destruct (field_split (Value (seed mnk)) _ _ Hoffr) as [Hs Ho].
  rewrite <- Hu in Hs, Ho.
  rewrite Hs, Ho, Hoff, (NewSeed_valid _ Hseed). reflexivity.
Qed.

End RoundTrip.

(** ** The run of [EncodeMnemonic] on a heap *)

Section MemFacts.

Variable WordList : list string.
Variable KeySet : Type.
Implicit Types (h : Mem.heap KeySet) (p z x y : Mem.loc).

Lemma bind_run {A B} (c : Mem.M KeySet A) (k : A -> Mem.M KeySet B) h a h' :
  c h = Some (a, h') -> Mem.bind KeySet c k h = k a h'.
Proof. intros Hc. unfold Mem.bind. rewrite Hc. reflexivity. Qed.

Lemma bind_panic {A B} (c : Mem.M KeySet A) (k : A -> Mem.M KeySet B) h :
  c h = None -> Mem.bind KeySet c k h = None.
Proof. intros Hc. unfold Mem.bind. rewrite Hc. reflexivity. Qed.

Lemma store_eq h p v : Mem.ints (Mem.store h p v) !! p = Some v.
Proof. apply lookup_insert_eq. Qed.

Lemma store_ne h p q v : p <> q -> Mem.ints (Mem.store h p v) !! q = Mem.ints h !! q.
Proof. apply lookup_insert_ne. Qed.

Lemma fresh_None h : Mem.ints h !! fresh (dom (Mem.ints h)) = None.
Proof. apply not_elem_of_dom, is_fresh. Qed.

Lemma fresh_ne h p v : Mem.ints h !! p = Some v -> fresh (dom (Mem.ints h)) <> p.
Proof. intros Hp Heq. rewrite <- Heq, fresh_None in Hp. discriminate. Qed.

Lemma getInt_run h p v : Mem.ints h !! p = Some v -> Mem.getInt KeySet p h = Some (v, h).
Proof. intros Hp. unfold Mem.getInt. rewrite Hp. reflexivity. Qed.

Lemma setInt_run h p v w :
  Mem.ints h !! p = Some w -> Mem.setInt KeySet p v h = Some (tt, Mem.store h p v).
Proof. intros Hp. unfold Mem.setInt. rewrite Hp. reflexivity. Qed.

Lemma Set_run h z x v w :
  Mem.ints h !! x = Some v -> Mem.ints h !! z = Some w ->
  Mem.Set_ KeySet z x h = Some (z, Mem.store h z v).
Proof.
  intros Hx Hz. unfold Mem.Set_.
  rewrite (bind_run _ _ _ _ _ (getInt_run _ _ _ Hx)).
  rewrite (bind_run _ _ _ _ _ (setInt_run _ _ v _ Hz)). reflexivity.
Qed.

Lemma Lsh_run h z x n v w :
  Mem.ints h !! x = Some v -> Mem.ints h !! z = Some w ->
  Mem.Lsh KeySet z x n h = Some (z, Mem.store h z (Z.shiftl v n)).
Proof.
  intros Hx Hz. unfold Mem.Lsh.
  rewrite (bind_run _ _ _ _ _ (getInt_run _ _ _ Hx)).
  rewrite (bind_run _ _ _ _ _ (setInt_run _ _ (Z.shiftl v n) _ Hz)). reflexivity.
Qed.

Lemma Or_run h z x y v w u :
  Mem.ints h !! x = Some v -> Mem.ints h !! y = Some w -> Mem.ints h !! z = Some u ->
  Mem.Or KeySet z x y h = Some (z, Mem.store h z (Z.lor v w)).
Proof.
  intros Hx Hy Hz. unfold Mem.Or.
  rewrite (bind_run _ _ _ _ _ (getInt_run _ _ _ Hx)).
  rewrite (bind_run _ _ _ _ _ (getInt_run _ _ _ Hy)).
  rewrite (bind_run _ _ _ _ _ (setInt_run _ _ (Z.lor v w) _ Hz)). reflexivity.
Qed.

(** Storing into a cell that [h0] does not have keeps [h0] unchanged. *)
Lemma unchanged_refl h : Mem.unchanged h h.
Proof. repeat split; auto. Qed.

Lemma unchanged_store h0 h p v :
  Mem.unchanged h0 h -> Mem.ints h0 !! p = None -> Mem.unchanged h0 (Mem.store h p v).
Proof.
  intros (Hk & Hs & Hi) Hp. repeat split; [exact Hk | exact Hs |].
  intros q w Hq. rewrite store_ne; [apply Hi, Hq |].
  intros ->. rewrite Hp in Hq. discriminate.
Qed.

Lemma unchanged_None h0 h p :
  Mem.unchanged h0 h -> Mem.ints h !! p = None -> Mem.ints h0 !! p = None.
Proof.
  intros (_ & _ & Hi) Hp. destruct (Mem.ints h0 !! p) as [w |] eqn:Hw; [| reflexivity].
  rewrite (Hi _ _ Hw) in Hp. discriminate.
Qed.

Lemma NewInt_run h0 h v :
  Mem.unchanged h0 h ->
  exists p,
    Mem.NewInt KeySet v h = Some (p, Mem.store h p v)
    /\ Mem.ints h !! p = None
    /\ Mem.unchanged h0 (Mem.store h p v).
Proof.
  intros Hu. exists (fresh (dom (Mem.ints h))).
  split; [reflexivity |]. split; [apply fresh_None |].
  apply unchanged_store; [assumption |].
  eapply unchanged_None; [exact Hu | apply fresh_None].
Qed.

Lemma FillBytes_run h x n v :
  Mem.ints h !! x = Some v ->
  Mem.FillBytes KeySet x n h =
    match FillBytes v n with
    | Some buf => Some (buf, h)
    | None => None
    end.
Proof.
  intros Hx. unfold Mem.FillBytes.
  rewrite (bind_run _ _ _ _ _ (getInt_run _ _ _ Hx)).
  destruct (FillBytes v n); reflexivity.
Qed.

Ltac lookups :=
  repeat first
    [ rewrite store_eq
    | rewrite store_ne by (intros ->; congruence)
    | eassumption | reflexivity ].

(** The run on the heap computes what [EncodeMnemonic] computes on the
    Mnemonikey the pointers lead to, and changes no object of the heap. *)
Lemma Mem_EncodeMnemonic_run h mnk k s v :
  Mem.keys h !! mnk = Some k ->
  Mem.seeds h !! Mem.seed k = Some s ->
  Mem.ints h !! Mem.Value s = Some v ->
  exists h',
    Mem.unchanged h h'
    /\ Mem.EncodeMnemonic WordList mnk h =
         match EncodeMnemonic WordList (snapshot k v) with
         | Some r => Some (r, h')
         | None => None
         end.
Proof.
  intros Hk Hs Hv. unfold Mem.EncodeMnemonic, EncodeMnemonic.
  assert (Hload : Mem.loadKey KeySet mnk h = Some (k, h))
    by (unfold Mem.loadKey; rewrite Hk; reflexivity).
  rewrite (bind_run _ _ _ _ _ Hload). cbv zeta.
  assert (Hseed : Mem.loadSeed KeySet (Mem.seed k) h = Some (s, h))
    by (unfold Mem.loadSeed; rewrite Hs; reflexivity).
  rewrite (bind_run _ _ _ _ _ Hseed).
  cbn [snapshot seed keyCreationTime Value].
  set (off := wrap_int64 (offsetOf (Mem.keyCreationTime k))).
  (* new(big.Int) *)
  destruct (NewInt_run h h 0 (unchanged_refl h)) as (z & Hnew & Hz & U1).
  rewrite (bind_run _ _ _ _ _ Hnew).
  (* .Set(mnk.seed.Value) *)
  erewrite bind_run by (eapply Set_run; lookups).
  pose proof (unchanged_store h _ z v U1 Hz) as U2.
  (* .Lsh(payloadInt, CreationOffsetBitCount) *)
  erewrite bind_run by (eapply Lsh_run; lookups).
  pose proof (unchanged_store h _ z (Z.shiftl v CreationOffsetBitCount) U2 Hz) as U3.
  (* big.NewInt(creationOffset) *)
  destruct (NewInt_run h _ off U3) as (o & Hnew_o & Ho & U4).
  rewrite (bind_run _ _ _ _ _ Hnew_o).
  assert (Hoz : o <> z) by (intros ->; revert Ho; lookups; discriminate).
  (* .Or(payloadInt, ...) *)
  erewrite bind_run by (eapply Or_run; lookups).
  set (u := Z.lor (Z.shiftl v CreationOffsetBitCount) off) in *.
  pose proof (unchanged_store h _ z u U4 Hz) as U5.
  (* .FillBytes *)
  unfold Mem.bind at 1. erewrite FillBytes_run by lookups.
  destruct (FillBytes u _) as [payloadBytes |]; [| exists h; split; [apply unchanged_refl | reflexivity]].
  set (checksum := Z.land checksumMask (ChecksumIEEE payloadBytes)).
  erewrite bind_run by (eapply Lsh_run; lookups).
  pose proof (unchanged_store h _ z (Z.shiftl u ChecksumBitCount) U5 Hz) as U6.
  destruct (NewInt_run h _ checksum U6) as (c & Hnew_c & Hc & U7).
  rewrite (bind_run _ _ _ _ _ Hnew_c).
  assert (Hcz : c <> z) by (intros ->; revert Hc; lookups; discriminate).
  erewrite bind_run by (eapply Or_run; lookups).
  pose proof (unchanged_store h _ z (Z.lor (Z.shiftl u ChecksumBitCount) checksum) U7 Hz) as U8.
  unfold Mem.EncodeToIndices.
  erewrite bind_run by (erewrite bind_run by (eapply getInt_run; lookups); reflexivity).
  eexists. split; [exact U8 |].
  destruct (mnemonic.EncodeToMnemonic WordList _); reflexivity.
Qed.

End MemFacts.


(** * Main theorems *)

(** ** Construction *)

(** C2, as the code has it: a set expiry that lies strictly before the
    requested creation time makes [New] fail with [ErrExpiryTooEarly]; with
    no expiry set, or an expiry at or after the requested creation time
    (the two being equal included), [New] does not return
    [ErrExpiryTooEarly]. *)
Theorem New_expiry_check (KeySet : Type)
  (derivePGPKeySet : list Z -> Time -> KeyOptions -> KeySet + string)
  (s : Seed) (creation : Time) (opts : option KeyOptions) :
  (Expiry (optionsOrZero opts) <> zeroTime ->
   Expiry (optionsOrZero opts) < creation ->
   New derivePGPKeySet s creation opts = Err ErrExpiryTooEarly)
  /\ (Expiry (optionsOrZero opts) = zeroTime \/ creation <= Expiry (optionsOrZero opts) ->
      New derivePGPKeySet s creation opts <> Err ErrExpiryTooEarly).
Proof.
  split.
  - apply New_early_expiry.
  - apply New_not_expiry_error.
Qed.

Lemma New_expiry_check_witness :
  New Demo.derive Demo.seed0 Demo.requested (Some Demo.expiredBefore)
    = Err ErrExpiryTooEarly
  /\ New Demo.derive Demo.seed0 Demo.requested (Some Demo.expiresAtCreation)
     <> Err ErrExpiryTooEarly.
Proof.
  split.
  - apply (New_expiry_check Demo.KeySet Demo.derive Demo.seed0 Demo.requested
             (Some Demo.expiredBefore)).
    + vm_compute. discriminate.
    + vm_compute. reflexivity.
  - apply (New_expiry_check Demo.KeySet Demo.derive Demo.seed0 Demo.requested
             (Some Demo.expiresAtCreation)).
    right. vm_compute. discriminate.
Defined.

(** C2 with the spec's "not strictly after" fails at an expiry equal to the
    requested creation time: the expiry is set and is not strictly after the
    creation time, and [New] returns a Mnemonikey. *)
Lemma New_expiry_at_creation_accepted :
  Expiry Demo.expiresAtCreation <> zeroTime
  /\ ~ Demo.requested < Expiry Demo.expiresAtCreation
  /\ New Demo.derive Demo.seed0 Demo.requested (Some Demo.expiresAtCreation)
     = Ok {| pgpKeySet := (Bytes Demo.seed0, Demo.quantized, Demo.expiresAtCreation);
             seed := Demo.seed0;
             keyCreationTime := Demo.quantized |}.
Proof.
  split; [vm_compute; discriminate |].
  split; [vm_compute; discriminate |].
  vm_compute. reflexivity.
Qed.

(** C3: for a requested creation time within the epoch, the Mnemonikey that
    [New] returns stores [EpochStart + floor((requested - EpochStart) /
    EpochIncrement) * EpochIncrement], which [CreatedAt] returns; a time on
    an [EpochIncrement] boundary is stored unchanged.  [New] returns such a
    Mnemonikey whenever the expiry allows the time and the builder returns a
    key set. *)
Theorem New_floors_creation (KeySet : Type)
  (derivePGPKeySet : list Z -> Time -> KeyOptions -> KeySet + string)
  (s : Seed) (creation : Time) (opts : option KeyOptions) :
  inEpoch creation ->
  (forall ks,
      expiryAllows creation (optionsOrZero opts) ->
      derivePGPKeySet (Bytes s) (floorTime creation) (optionsOrZero opts) = inl ks ->
      New derivePGPKeySet s creation opts
      = Ok {| pgpKeySet := ks; seed := s; keyCreationTime := floorTime creation |})
  /\ (forall mnk,
         New derivePGPKeySet s creation opts = Ok mnk ->
         keyCreationTime mnk
         = EpochStart + (creation - EpochStart) / EpochIncrement * EpochIncrement
         /\ CreatedAt mnk = keyCreationTime mnk
         /\ ((creation - EpochStart) mod EpochIncrement = 0 -> CreatedAt mnk = creation)
         /\ CreatedAt mnk <= creation < CreatedAt mnk + EpochIncrement).
Proof.
  intros Hin. split.
  - intros ks Hexp Hks. rewrite New_inEpoch by assumption.
    unfold keyed. rewrite Hks. reflexivity.
  - intros mnk Hnew. destruct (New_Ok_inv _ _ _ _ _ _ Hnew) as (_ & _ & Ht).
    unfold CreatedAt. rewrite Ht. unfold floorTime.
    split; [reflexivity |]. split; [reflexivity |].
    rewrite EpochIncrement_val.
    pose proof (Z.div_mod (creation - EpochStart) 1000000000 ltac:(lia)).
    pose proof (Z.mod_pos_bound (creation - EpochStart) 1000000000 ltac:(lia)).
    split; [intros Hb |]; lia.
Qed.

Lemma New_floors_creation_witness :
  New Demo.derive Demo.seed0 Demo.requested None = Ok Demo.mnk
  /\ CreatedAt Demo.mnk = Demo.quantized
  /\ Demo.quantized < Demo.requested
  /\ New Demo.derive Demo.seed0 Demo.quantized None = Ok Demo.mnk.
Proof.
  assert (Hin : inEpoch Demo.requested) by (vm_compute; split; discriminate).
  assert (Hin' : inEpoch Demo.quantized) by (vm_compute; split; discriminate).
  destruct (New_floors_creation Demo.KeySet Demo.derive Demo.seed0 Demo.requested
              None Hin) as [Hnew Hstored].
  destruct (New_floors_creation Demo.KeySet Demo.derive Demo.seed0 Demo.quantized
              None Hin') as [Hnew' _].
  assert (H1 : New Demo.derive Demo.seed0 Demo.requested None = Ok Demo.mnk).
  { apply (Hnew (Bytes Demo.seed0, Demo.quantized, zeroKeyOptions)).
    - left. reflexivity.
    - vm_compute. reflexivity. }
  destruct (Hstored Demo.mnk H1) as (Ht & Hc & _ & _).
  split; [exact H1 |]. split; [exact Hc |]. split; [vm_compute; reflexivity |].
  apply (Hnew' (Bytes Demo.seed0, Demo.quantized, zeroKeyOptions)).
  - left. reflexivity.
  - vm_compute. reflexivity.
Defined.


(** C4: with options whose expiry does not conflict with the creation time,
    [New] at [EpochStart] returns a Mnemonikey with creation offset 0 and at
    [MaxCreationTime] returns a Mnemonikey (the builder's key set around the
    seed and that time); strictly after [MaxCreationTime] it fails with
    [ErrCreationTooLate], strictly before [EpochStart] with
    [ErrCreationTooEarly]. *)
Theorem New_creation_bounds (KeySet : Type)
  (derivePGPKeySet : list Z -> Time -> KeyOptions -> KeySet + string)
  (s : Seed) (opts : option KeyOptions) :
  (forall ks,
      expiryAllows EpochStart (optionsOrZero opts) ->
      derivePGPKeySet (Bytes s) EpochStart (optionsOrZero opts) = inl ks ->
      New derivePGPKeySet s EpochStart opts
      = Ok {| pgpKeySet := ks; seed := s; keyCreationTime := EpochStart |}
      /\ offsetOf EpochStart = 0
      /\ creationOffsetOf
           {| pgpKeySet := ks; seed := s; keyCreationTime := EpochStart |} = 0)
  /\ (forall ks,
         expiryAllows MaxCreationTime (optionsOrZero opts) ->
         derivePGPKeySet (Bytes s) MaxCreationTime (optionsOrZero opts) = inl ks ->
         New derivePGPKeySet s MaxCreationTime opts
         = Ok {| pgpKeySet := ks; seed := s; keyCreationTime := MaxCreationTime |}
         /\ offsetOf MaxCreationTime = 2 ^ CreationOffsetBitCount - 1)
  /\ (forall creation,
         expiryAllows creation (optionsOrZero opts) ->
         MaxCreationTime < creation ->
         New derivePGPKeySet s creation opts = Err ErrCreationTooLate)
  /\ (forall creation,
         expiryAllows creation (optionsOrZero opts) ->
         creation < EpochStart ->
         New derivePGPKeySet s creation opts = Err ErrCreationTooEarly).
Proof.
  assert (Hstart : inEpoch EpochStart) by (vm_compute; split; discriminate).
  assert (Hmax : inEpoch MaxCreationTime) by (vm_compute; split; discriminate).
  split; [| split; [| split]].
  - intros ks Hexp Hks. rewrite New_inEpoch by assumption. unfold keyed.
    change (floorTime EpochStart) with EpochStart. rewrite Hks.
    repeat split; reflexivity.
  - intros ks Hexp Hks. rewrite New_inEpoch by assumption. unfold keyed.
    change (floorTime MaxCreationTime) with MaxCreationTime. rewrite Hks.
    split; reflexivity.
  - intros creation Hexp Hlate. rewrite New_expiry_passes by assumption.
    unfold After. destruct (Z.ltb_spec MaxCreationTime creation); [reflexivity | lia].
  - intros creation Hexp Hearly. rewrite New_expiry_passes by assumption.
    unfold After, Before.
    assert (EpochStart < MaxCreationTime) by reflexivity.
    destruct (Z.ltb_spec MaxCreationTime creation); [lia |].
    destruct (Z.ltb_spec creation EpochStart); [reflexivity | lia].
Qed.

Lemma New_creation_bounds_witness :
  New Demo.derive Demo.seed0 EpochStart None
    = Ok {| pgpKeySet := (Bytes Demo.seed0, EpochStart, zeroKeyOptions);
            seed := Demo.seed0; keyCreationTime := EpochStart |}
  /\ New Demo.derive Demo.seed0 MaxCreationTime None
     = Ok {| pgpKeySet := (Bytes Demo.seed0, MaxCreationTime, zeroKeyOptions);
             seed := Demo.seed0; keyCreationTime := MaxCreationTime |}
  /\ New Demo.derive Demo.seed0 (MaxCreationTime + EpochIncrement) None
     = Err ErrCreationTooLate
  /\ New Demo.derive Demo.seed0 (EpochStart - 1) None = Err ErrCreationTooEarly.
Proof.
  destruct (New_creation_bounds Demo.KeySet Demo.derive Demo.seed0 None)
    as (Hstart & Hmax & Hlate & Hearly).
  split; [| split; [| split]].
  - apply (Hstart (Bytes Demo.seed0, EpochStart, zeroKeyOptions)).
    + left. reflexivity.
    + reflexivity.
  - apply (Hmax (Bytes Demo.seed0, MaxCreationTime, zeroKeyOptions)).
    + left. reflexivity.
    + reflexivity.
  - apply Hlate.
    + left. reflexivity.
    + vm_compute. reflexivity.
  - apply Hearly.
    + left. reflexivity.
    + vm_compute. reflexivity.
Defined.

(** C10: [New] with a [nil] options pointer is [New] with the zero
    [KeyOptions], which have no expiry set: it never returns
    [ErrExpiryTooEarly], and for a creation time within the epoch it returns
    what the builder makes of the seed, the quantized time and the zero
    options. *)
Theorem New_nil_options (KeySet : Type)
  (derivePGPKeySet : list Z -> Time -> KeyOptions -> KeySet + string)
  (s : Seed) (creation : Time) :
  New derivePGPKeySet s creation None
    = New derivePGPKeySet s creation (Some zeroKeyOptions)
  /\ IsZero (Expiry zeroKeyOptions) = true
  /\ New derivePGPKeySet s creation None <> Err ErrExpiryTooEarly
  /\ (inEpoch creation ->
      New derivePGPKeySet s creation None
      = keyed derivePGPKeySet s (floorTime creation) zeroKeyOptions).
Proof.
  split; [reflexivity |]. split; [reflexivity |].
  split.
  - apply New_not_expiry_error. left. reflexivity.
  - intros Hin. apply New_inEpoch; [assumption | left; reflexivity].
Qed.

Lemma New_nil_options_witness :
  inEpoch Demo.requested
  /\ New Demo.derive Demo.seed0 Demo.requested None
     = New Demo.derive Demo.seed0 Demo.requested (Some zeroKeyOptions)
  /\ New Demo.derive Demo.seed0 Demo.requested None = Ok Demo.mnk.
Proof.
  assert (Hin : inEpoch Demo.requested) by (vm_compute; split; discriminate).
  destruct (New_nil_options Demo.KeySet Demo.derive Demo.seed0 Demo.requested)
    as (Hsame & _ & _ & Hkeyed).
  split; [exact Hin |]. split; [exact Hsame |].
  rewrite (Hkeyed Hin). vm_compute. reflexivity.
Defined.


(** ** Decoding *)

(** [DecodeMnemonic] never panics, and its result is the first of: the word
    count error, the error of the word lookup, the error of the index
    reassembly, what [unpacked] makes of the payload integer. *)
Lemma DecodeMnemonic_total (WordList : list string) (words : list string) :
  DecodeMnemonic WordList words =
    Some (if negb (Z.of_nat (length words) =? MnemonicSize) then
            (None, zeroTime, Some ErrInvalidWordCount)
          else
            match mnemonic.DecodeMnemonic WordList words with
            | Err err => (None, zeroTime, Some err)
            | Ok indices =>
                match mnemonic.DecodeIndices indices with
                | Err err => (None, zeroTime, Some err)
                | Ok payloadInt => unpacked (be_bytes 20 (payloadInt / 32)) payloadInt
                end
            end).
Proof.
  destruct (negb (Z.of_nat (length words) =? MnemonicSize)) eqn:Hlen.
  - unfold DecodeMnemonic. rewrite Hlen. reflexivity.
  - destruct (mnemonic.DecodeMnemonic WordList words) as [indices | e] eqn:Hw.
    + destruct (mnemonic.DecodeIndices indices) as [payloadInt | e] eqn:Hi.
      * apply negb_false_iff, Z.eqb_eq in Hlen. unfold MnemonicSize in Hlen.
        apply (DecodeMnemonic_payload WordList words indices payloadInt);
          [lia | assumption | assumption].
      * unfold DecodeMnemonic. rewrite Hlen, Hw, Hi. reflexivity.
    + unfold DecodeMnemonic. rewrite Hlen, Hw. reflexivity.
Qed.

(** C6: a list of words whose length is not [MnemonicSize] makes
    [DecodeMnemonic] return [ErrInvalidWordCount] (with a nil seed and the
    zero time), whatever the word table and whatever the words: neither the
    word lookup nor the checksum has a say in it.  Lists of 14 and of 16
    words are among them. *)
Theorem DecodeMnemonic_word_count (WordList : list string) (words : list string) :
  Z.of_nat (length words) <> MnemonicSize ->
  DecodeMnemonic WordList words = Some (None, zeroTime, Some ErrInvalidWordCount).
Proof.
  intros Hlen. unfold DecodeMnemonic.
  destruct (Z.eqb_spec (Z.of_nat (length words)) MnemonicSize); [contradiction |].
  reflexivity.
Qed.

Lemma DecodeMnemonic_word_count_witness :
  DecodeMnemonic Demo.WordList (removelast Demo.words)
    = Some (None, zeroTime, Some ErrInvalidWordCount)
  /\ DecodeMnemonic Demo.WordList (Demo.words ++ ["aaa"%string])
     = Some (None, zeroTime, Some ErrInvalidWordCount)
  /\ DecodeMnemonic [] (removelast Demo.unknown)
     = Some (None, zeroTime, Some ErrInvalidWordCount).
Proof.
  split; [| split].
  - apply (DecodeMnemonic_word_count Demo.WordList (removelast Demo.words)).
    vm_compute. discriminate.
  - apply (DecodeMnemonic_word_count Demo.WordList (Demo.words ++ ["aaa"%string])).
    vm_compute. discriminate.
  - apply (DecodeMnemonic_word_count [] (removelast Demo.unknown)).
    vm_compute. discriminate.
Defined.

(** C8: [DecodeMnemonic] returns (it does not panic), and whenever it
    returns an error, the seed it returns is nil and the creation time is
    the zero instant. *)
Theorem DecodeMnemonic_error_nil (WordList : list string) (words : list string) :
  (exists r, DecodeMnemonic WordList words = Some r)
  /\ (forall sd creation err,
         DecodeMnemonic WordList words = Some (sd, creation, Some err) ->
         sd = None /\ creation = zeroTime /\ IsZero creation = true).
Proof.
  rewrite DecodeMnemonic_total. split; [eexists; reflexivity |].
  intros sd creation err.
  destruct (negb _); [intros [= <- <- _]; repeat split |].
  destruct (mnemonic.DecodeMnemonic WordList words) as [indices | e];
    [| intros [= <- <- _]; repeat split].
  destruct (mnemonic.DecodeIndices indices) as [payloadInt | e];
    [| intros [= <- <- _]; repeat split].
  generalize (be_bytes 20 (payloadInt / 32)) as payloadBytes. intros payloadBytes.
  unfold unpacked. destruct (_ =? _); [discriminate |].
  intros [= <- <- _]. repeat split.
Qed.

Lemma DecodeMnemonic_error_nil_witness :
  DecodeMnemonic Demo.WordList (removelast Demo.words)
    = Some (None, zeroTime, Some ErrInvalidWordCount)
  /\ DecodeMnemonic Demo.WordList Demo.unknown
     = Some (None, zeroTime, Some ErrUnknownWord)
  /\ DecodeMnemonic Demo.WordList Demo.mistyped
     = Some (None, zeroTime, Some ErrInvalidChecksum).
Proof.
  assert (Hnil : forall words sd creation err,
             DecodeMnemonic Demo.WordList words = Some (sd, creation, Some err) ->
             DecodeMnemonic Demo.WordList words = Some (None, zeroTime, Some err)).
  { intros words sd creation err Hdec.
    destruct (DecodeMnemonic_error_nil Demo.WordList words) as [_ Herr].
    destruct (Herr sd creation err Hdec) as (-> & -> & _). exact Hdec. }
  split; [| split].
  - apply (Hnil _ None 0). vm_compute. reflexivity.
  - apply (Hnil _ None 0). vm_compute. reflexivity.
  - apply (Hnil _ None 0). vm_compute. reflexivity.
Defined.


(** ** Encoding *)

(** The first of the indices of a payload holds its bits from
    [BitsPerWord * (n - 1)] up. *)
Lemma fold_pack_lower indices a :
  forallb mnemonic.validIndex indices = true -> 0 <= a ->
  a * 2048 ^ Z.of_nat (length indices) <= fold_left mnemonic.pack indices a.
Proof.
  revert a. induction indices as [| i rest IH]; intros a Hv Ha.
  - simpl. lia.
  - simpl in Hv. apply andb_true_iff in Hv as [Hi Hrest].
    cbn [fold_left length]. rewrite mnemonic_facts.pack_add by assumption.
    apply mnemonic_facts.validIndex_spec in Hi.
    change (2 ^ mnemonic.BitsPerWord) with 2048 in Hi.
    specialize (IH (a * 2048 + i) Hrest ltac:(lia)).
    rewrite Nat2Z.inj_succ, Z.pow_succ_r by lia.
    assert (0 < 2048 ^ Z.of_nat (length rest)) by (apply Z.pow_pos_nonneg; lia).
    nia.
Qed.

Lemma EncodeToIndices_first payloadInt :
  0 <= payloadInt < 2 ^ totalBitCount ->
  exists first rest,
    mnemonic.EncodeToIndices payloadInt totalBitCount = first :: rest
    /\ length rest = 14%nat
    /\ 0 <= first < 2 ^ (totalBitCount - 14 * mnemonic.BitsPerWord).
Proof.
  intros Hp.
  pose proof (mnemonic_facts.EncodeToIndices_length payloadInt totalBitCount) as Hlen.
  assert (Hvalid : forallb mnemonic.validIndex
                     (mnemonic.EncodeToIndices payloadInt totalBitCount) = true)
    by (apply mnemonic_facts.indices_of_valid; reflexivity).
  assert (Hdec : mnemonic.DecodeIndices (mnemonic.EncodeToIndices payloadInt totalBitCount)
                 = Ok payloadInt).
  { apply mnemonic_facts.DecodeIndices_EncodeToIndices.
    change (2 ^ totalBitCount)
      with 11692013098647223345629478661730264157247460343808 in Hp.
    change (2048 ^ Z.of_nat (mnemonic.wordsFor totalBitCount))
      with (11692013098647223345629478661730264157247460343808 * 4). lia. }
  destruct (mnemonic.EncodeToIndices payloadInt totalBitCount) as [| first rest];
    [discriminate |].
  exists first, rest. split; [reflexivity |].
  change (mnemonic.wordsFor totalBitCount) with 15%nat in Hlen.
  simpl in Hlen. split; [lia |].
  unfold mnemonic.DecodeIndices in Hdec. rewrite Hvalid in Hdec.
  injection Hdec as Hdec. cbn [fold_left] in Hdec.
  simpl in Hvalid. apply andb_true_iff in Hvalid as [Hfirst Hrest].
  rewrite mnemonic_facts.pack_add in Hdec by assumption.
  apply mnemonic_facts.validIndex_spec in Hfirst.
  pose proof (fold_pack_lower rest (0 * 2048 + first) Hrest ltac:(lia)) as Hlow.
  rewrite Hdec in Hlow. replace (length rest) with 14%nat in Hlow by lia.
  change (2 ^ totalBitCount) with (512 * 2048 ^ Z.of_nat 14) in Hp.
  change (2 ^ (totalBitCount - 14 * mnemonic.BitsPerWord)) with 512.
  assert (0 < 2048 ^ Z.of_nat 14) by reflexivity.
  nia.
Qed.

(** C7: the payload integer that [EncodeMnemonic] hands to the word codec is
    [(seed << 35) | (creationOffset << 5) | checksum]: the checksum in the 5
    low-order bits, the creation offset in the next 30, the seed above.  It
    has at most 163 bits and goes out with that bit count, on 15 indices of
    11 bits each, the first of which uses 9 bits only: the two bits left
    over are zero. *)
Theorem EncodeMnemonic_payload_layout (WordList : list string) (KeySet : Type)
  (mnk : Mnemonikey KeySet) :
  validKey mnk ->
  let checksum := checksumOf (be_bytes 20 (unchecksummed mnk)) in
  let payloadInt :=
    Z.lor (Z.lor (Z.shiftl (Value (seed mnk))
                           (CreationOffsetBitCount + ChecksumBitCount))
                 (Z.shiftl (creationOffsetOf mnk) ChecksumBitCount))
          checksum in
  let indices :=
    mnemonic.EncodeToIndices payloadInt
      (EntropyBitCount + CreationOffsetBitCount + ChecksumBitCount) in
  fullPayload mnk = Some payloadInt
  /\ EncodeMnemonic WordList mnk =
       Some match mnemonic.EncodeToMnemonic WordList indices with
            | Err err => Err (Wrapped "failed to encode indices to words" err)
            | Ok words => Ok words
            end
  /\ 0 <= checksum < 2 ^ ChecksumBitCount
  /\ 0 <= creationOffsetOf mnk < 2 ^ CreationOffsetBitCount
  /\ Z.land payloadInt (2 ^ ChecksumBitCount - 1) = checksum
  /\ Z.land (Z.shiftr payloadInt ChecksumBitCount) (2 ^ CreationOffsetBitCount - 1)
     = creationOffsetOf mnk
  /\ Z.shiftr payloadInt (CreationOffsetBitCount + ChecksumBitCount) = Value (seed mnk)
  /\ 0 <= payloadInt
       < 2 ^ (EntropyBitCount + CreationOffsetBitCount + ChecksumBitCount)
  /\ length indices = Z.to_nat MnemonicSize
  /\ Forall (fun i => 0 <= i < 2 ^ mnemonic.BitsPerWord) indices
  /\ mnemonic.DecodeIndices indices = Ok payloadInt
  /\ exists first rest,
       indices = first :: rest
       /\ 0 <= first
            < 2 ^ (EntropyBitCount + CreationOffsetBitCount + ChecksumBitCount
                   - (MnemonicSize - 1) * mnemonic.BitsPerWord).
Proof.
  intros Hv checksum payloadInt indices.
  destruct (unchecksummed_valid mnk Hv) as (_ & Hoffr & Hu & _).
  destruct (fullPayload_valid mnk Hv) as (_ & Hfull & Hrange).
  fold checksum in Hfull, Hrange.
  pose proof (checksumOf_range (be_bytes 20 (unchecksummed mnk))) as Hc.
  fold checksum in Hc.
  assert (Hlayout : payloadInt = unchecksummed mnk * 32 + checksum).
  { unfold payloadInt. rewrite Hu.
    replace (Z.lor (Z.shiftl (Value (seed mnk)) (CreationOffsetBitCount + ChecksumBitCount))
                   (Z.shiftl (creationOffsetOf mnk) ChecksumBitCount))
      with (Z.shiftl (Value (seed mnk) * 2 ^ CreationOffsetBitCount + creationOffsetOf mnk)
                     ChecksumBitCount).
    - rewrite lor_shiftl_add by (assumption || discriminate). reflexivity.
    - rewrite lor_shiftl_add.
      + rewrite !Z.shiftl_mul_pow2 by discriminate.
        change (2 ^ (CreationOffsetBitCount + ChecksumBitCount))
          with (2 ^ CreationOffsetBitCount * 2 ^ ChecksumBitCount). ring.
      + discriminate.
      + rewrite Z.shiftl_mul_pow2 by discriminate.
        change (2 ^ CreationOffsetBitCount) with 1073741824 in Hoffr.
        change (2 ^ ChecksumBitCount) with 32.
        change (2 ^ (CreationOffsetBitCount + ChecksumBitCount)) with (1073741824 * 32).
        lia. }
  clearbody payloadInt checksum. subst payloadInt.
  fold totalBitCount in indices, Hrange |- *.
  destruct (field_split (unchecksummed mnk) checksum 32 Hc) as [Hdiv Hmod].
  destruct (field_split (Value (seed mnk)) _ _ Hoffr) as [Hs Ho].
  rewrite <- Hu in Hs, Ho.
  split; [exact Hfull |].
  split; [rewrite EncodeMnemonic_stages, Hfull; reflexivity |].
  split; [exact Hc |]. split; [exact Hoffr |].
  split.
  { change (2 ^ ChecksumBitCount - 1) with (Z.shiftl 1 ChecksumBitCount - 1).
    rewrite land_mask_mod by discriminate. exact Hmod. }
  split.
  { change (2 ^ CreationOffsetBitCount - 1) with (Z.shiftl 1 CreationOffsetBitCount - 1).
    rewrite land_mask_mod, Z.shiftr_div_pow2 by discriminate.
    change (2 ^ ChecksumBitCount) with 32. rewrite Hdiv. exact Ho. }
  split.
  { rewrite Z.shiftr_div_pow2 by discriminate.
    change (2 ^ (CreationOffsetBitCount + ChecksumBitCount))
      with (32 * 2 ^ CreationOffsetBitCount).
    rewrite <- Z.div_div by (reflexivity || discriminate).
    rewrite Hdiv. exact Hs. }
  split; [exact Hrange |].
  split; [apply mnemonic_facts.EncodeToIndices_length |].
  split.
  { pose proof (mnemonic_facts.indices_of_valid (mnemonic.wordsFor totalBitCount)
                  (unchecksummed mnk * 32 + checksum) [] eq_refl) as Hvalid.
    fold (mnemonic.EncodeToIndices (unchecksummed mnk * 32 + checksum) totalBitCount)
      in Hvalid.
    fold indices in Hvalid. clearbody indices.
    induction indices as [| i rest IH]; [constructor |].
    simpl in Hvalid. apply andb_true_iff in Hvalid as [Hi Hrest].
    constructor; [apply mnemonic_facts.validIndex_spec, Hi | apply IH, Hrest]. }
  split.
  { apply mnemonic_facts.DecodeIndices_EncodeToIndices.
    change (2 ^ totalBitCount)
      with 11692013098647223345629478661730264157247460343808 in Hrange.
    change (2048 ^ Z.of_nat (mnemonic.wordsFor totalBitCount))
      with (11692013098647223345629478661730264157247460343808 * 4). lia. }
  destruct (EncodeToIndices_first _ Hrange) as (first & rest & Heq & _ & Hfirst).
  exists first, rest. split; [exact Heq | exact Hfirst].
Qed.

Lemma EncodeMnemonic_payload_layout_witness :
  validKey Demo.mnk
  /\ fullPayload Demo.mnk = Some Demo.payload
  /\ Z.shiftr Demo.payload 35 = Value Demo.seed0
  /\ Z.land (Z.shiftr Demo.payload 5) (2 ^ 30 - 1) = 123456789
  /\ mnemonic.EncodeToIndices Demo.payload 163 = Demo.indices
  /\ EncodeMnemonic Demo.WordList Demo.mnk = Some (Ok Demo.words).
Proof.
  assert (Hv : validKey Demo.mnk).
  { split; [vm_compute; split; [discriminate | reflexivity]
           | vm_compute; split; discriminate]. }
  destruct (EncodeMnemonic_payload_layout Demo.WordList Demo.KeySet Demo.mnk Hv)
    as (Hfull & Henc & _ & _ & _ & Hoff & Hseed & _).
  split; [exact Hv |].
  split; [rewrite Hfull; vm_compute; reflexivity |].
  split; [vm_compute; reflexivity |].
  split; [vm_compute; reflexivity |].
  split; [vm_compute; reflexivity |].
  rewrite Henc. vm_compute. reflexivity.
Defined.


(** ** The checksum *)

(** C5: [EncodeMnemonic] and [DecodeMnemonic] take the checksum over the
    same kind of bytes.  Encoding serializes the unchecksummed payload
    [seed << 30 | creationOffset], of at most 158 bits, on [(158+7)/8 = 20]
    big-endian bytes, zeros first, and appends the 5 low-order bits of their
    CRC-32.  Decoding shifts the 5 checksum bits off the payload integer of
    the words, serializes the rest on [(165-5+7)/8 = 20] big-endian bytes,
    and fails with [ErrInvalidChecksum] exactly when the 5 low-order bits of
    their CRC-32 differ from the 5 bits shifted off.  On the payload integer
    of the encoding, the bytes are the same. *)
Theorem checksum_bytes_agree (WordList : list string) (KeySet : Type)
  (mnk : Mnemonikey KeySet) (words : list string) (indices : list Z)
  (payloadInt : Z) :
  validKey mnk ->
  length words = Z.to_nat MnemonicSize ->
  mnemonic.DecodeMnemonic WordList words = Ok indices ->
  mnemonic.DecodeIndices indices = Ok payloadInt ->
  let encodeCount := byteCount (EntropyBitCount + CreationOffsetBitCount) in
  let decodeCount :=
    byteCount (wrap_uint64 (mnemonic.BitsPerWord * Z.of_nat (length words)
                            - ChecksumBitCount)) in
  exists encoded decoded : list Z,
    (* encoding *)
    unchecksummed mnk
      = Z.lor (Z.shiftl (Value (seed mnk)) CreationOffsetBitCount) (creationOffsetOf mnk)
    /\ 0 <= unchecksummed mnk < 2 ^ (EntropyBitCount + CreationOffsetBitCount)
    /\ FillBytes (unchecksummed mnk) encodeCount = Some encoded
    /\ length encoded = encodeCount
    /\ Forall (fun b => 0 <= b < 256) encoded
    /\ SetBytes encoded = unchecksummed mnk
    /\ (exists b rest,
          encoded = b :: rest
          /\ b < 2 ^ (EntropyBitCount + CreationOffsetBitCount
                      - 8 * (Z.of_nat encodeCount - 1)))
    /\ fullPayload mnk
       = Some (Z.lor (Z.shiftl (unchecksummed mnk) ChecksumBitCount)
                     (Z.land checksumMask (ChecksumIEEE encoded)))
    /\ EncodeMnemonic WordList mnk
       = Some (phrase WordList
                 (Z.lor (Z.shiftl (unchecksummed mnk) ChecksumBitCount)
                        (Z.land checksumMask (ChecksumIEEE encoded))))
    (* decoding *)
    /\ FillBytes (Z.shiftr payloadInt ChecksumBitCount) decodeCount = Some decoded
    /\ length decoded = decodeCount
    /\ Forall (fun b => 0 <= b < 256) decoded
    /\ SetBytes decoded = Z.shiftr payloadInt ChecksumBitCount
    /\ (DecodeMnemonic WordList words = Some (None, zeroTime, Some ErrInvalidChecksum)
        <-> Z.land checksumMask (ChecksumIEEE decoded) <> Z.land payloadInt checksumMask)
    /\ (Z.land checksumMask (ChecksumIEEE decoded) = Z.land payloadInt checksumMask ->
        exists sd creation,
          DecodeMnemonic WordList words = Some (Some sd, creation, None))
    (* both *)
    /\ decodeCount = encodeCount
    /\ encodeCount = 20%nat
    /\ (fullPayload mnk = Some payloadInt ->
        decoded = encoded
        /\ Z.land checksumMask (ChecksumIEEE decoded) = Z.land payloadInt checksumMask).
Proof.
  intros Hv Hlen Hwords Hidx encodeCount decodeCount.
  change (Z.to_nat MnemonicSize) with 15%nat in Hlen.
  assert (He : encodeCount = 20%nat) by reflexivity.
  assert (Hd : decodeCount = 20%nat) by (unfold decodeCount; rewrite Hlen; reflexivity).
  rewrite Hd, He. clear encodeCount decodeCount He Hd.
  destruct (unchecksummed_valid mnk Hv) as (_ & _ & _ & Hu).
  destruct (fullPayload_valid mnk Hv) as (Henc & Hfull & _).
  destruct (DecodeMnemonic_payload WordList words indices payloadInt Hlen Hwords Hidx)
    as [Hfill Hdec].
  assert (Hshift : Z.shiftr payloadInt ChecksumBitCount = payloadInt / 32)
    by (rewrite Z.shiftr_div_pow2 by discriminate; reflexivity).
  assert (Hmask : Z.land payloadInt checksumMask = payloadInt mod 32)
    by (unfold checksumMask; rewrite land_mask_mod by discriminate; reflexivity).
  assert (Hfit : 0 <= unchecksummed mnk < 256 ^ Z.of_nat 20).
  { change (2 ^ (EntropyBitCount + CreationOffsetBitCount))
      with 365375409332725729550921208179070754913983135744 in Hu.
    change (256 ^ Z.of_nat 20)
      with 1461501637330902918203684832716283019655932542976. lia. }
  assert (Hfit' : 0 <= payloadInt / 32 < 256 ^ Z.of_nat 20).
  { pose proof (mnemonic_facts.DecodeIndices_bound _ _ Hidx) as Hp.
    rewrite (mnemonic_facts.DecodeMnemonic_length _ _ _ Hwords), Hlen in Hp.
    change (2048 ^ Z.of_nat 15)
      with (1461501637330902918203684832716283019655932542976 * 32) in Hp.
    change (256 ^ Z.of_nat 20)
      with 1461501637330902918203684832716283019655932542976.
    split; [apply Z.div_pos; lia | apply Z.div_lt_upper_bound; lia]. }
  assert (Hsame : payloadInt / 32 = unchecksummed mnk ->
                  be_bytes 20 (payloadInt / 32) = be_bytes 20 (unchecksummed mnk))
    by (intros ->; reflexivity).
  destruct (FillBytes_fits _ _ Hfit) as [HencFill HencSet].
  destruct (FillBytes_fits _ _ Hfit') as [HdecFill HdecSet].
  pose proof (be_bytes_length 20 (unchecksummed mnk)) as HencLen.
  pose proof (be_bytes_length 20 (payloadInt / 32)) as HdecLen.
  pose proof (be_bytes_range 20 (unchecksummed mnk)) as HencRange.
  pose proof (be_bytes_range 20 (payloadInt / 32)) as HdecRange.
  assert (Hhead : exists b rest,
             be_bytes 20 (unchecksummed mnk) = b :: rest /\ b < 64).
  { exists ((unchecksummed mnk / 256 ^ Z.of_nat 19) mod 256),
      (be_bytes 19 (unchecksummed mnk)).
    split; [apply (be_bytes_head 19) |].
    assert (Hu' : 0 <= unchecksummed mnk < 64 * 256 ^ Z.of_nat 19) by exact Hu.
    assert (Hpos : 0 < 256 ^ Z.of_nat 19) by reflexivity.
    assert (Hq : 0 <= unchecksummed mnk / 256 ^ Z.of_nat 19 < 64)
      by (split; [apply Z.div_pos; lia | apply Z.div_lt_upper_bound; lia]).
    rewrite Z.mod_small by lia. lia. }
  pose proof (EncodeMnemonic_stages WordList mnk) as Hstages.
  rewrite Hfull in Hstages.
  revert Hfull Hstages Hdec Hsame HencFill HencSet HdecFill HdecSet HencLen HdecLen
    HencRange HdecRange Hhead.
  generalize (be_bytes 20 (unchecksummed mnk)) as encoded.
  generalize (be_bytes 20 (payloadInt / 32)) as decoded.
  intros decoded encoded Hfull Hstages Hdec Hsame HencFill HencSet HdecFill HdecSet
    HencLen HdecLen HencRange HdecRange Hhead.
  pose proof (checksumOf_range encoded) as Hc.
  exists encoded, decoded.
  rewrite Hshift, Hmask. fold (checksumOf encoded). fold (checksumOf decoded).
  split; [reflexivity |]. split; [exact Hu |].
  split; [exact HencFill |]. split; [exact HencLen |]. split; [exact HencRange |].
  split; [exact HencSet |]. split; [exact Hhead |].
  rewrite (lor_shiftl_add (unchecksummed mnk) (checksumOf encoded) ChecksumBitCount)
    by (exact Hc || discriminate).
  split; [exact Hfull |]. split; [exact Hstages |].
  split; [exact HdecFill |]. split; [exact HdecLen |]. split; [exact HdecRange |].
  split; [exact HdecSet |].
  rewrite Hdec. unfold unpacked.
  split.
  { destruct (Z.eqb_spec (checksumOf decoded) (payloadInt mod 32)) as [Heq | Hne].
    - split; [discriminate | contradiction].
    - split; [intros _; exact Hne | reflexivity]. }
  split.
  { intros Heq. rewrite Heq, Z.eqb_refl. eexists. eexists. reflexivity. }
  split; [reflexivity |]. split; [reflexivity |].
  rewrite Hfull. intros [= <-].
  destruct (field_split (unchecksummed mnk) _ 32 Hc) as [Hdiv Hmod].
  rewrite Hdiv, Hmod in *. rewrite (Hsame eq_refl). split; reflexivity.
Qed.

Lemma checksum_bytes_agree_witness :
  validKey Demo.mnk
  /\ mnemonic.DecodeMnemonic Demo.WordList Demo.words = Ok Demo.indices
  /\ mnemonic.DecodeIndices Demo.indices = Ok Demo.payload
  /\ fullPayload Demo.mnk = Some Demo.payload
  /\ exists bytes,
       FillBytes (unchecksummed Demo.mnk) 20 = Some bytes
       /\ FillBytes (Z.shiftr Demo.payload ChecksumBitCount) 20 = Some bytes
       /\ Z.land checksumMask (ChecksumIEEE bytes) = Z.land Demo.payload checksumMask.
Proof.
  assert (Hv : validKey Demo.mnk).
  { split; [vm_compute; split; [discriminate | reflexivity]
           | vm_compute; split; discriminate]. }
  assert (Hwords : mnemonic.DecodeMnemonic Demo.WordList Demo.words = Ok Demo.indices)
    by (vm_compute; reflexivity).
  assert (Hidx : mnemonic.DecodeIndices Demo.indices = Ok Demo.payload)
    by (vm_compute; reflexivity).
  assert (Hfull : fullPayload Demo.mnk = Some Demo.payload)
    by (vm_compute; reflexivity).
  destruct (checksum_bytes_agree Demo.WordList Demo.KeySet Demo.mnk Demo.words
              Demo.indices Demo.payload Hv eq_refl Hwords Hidx)
    as (encoded & decoded & _ & _ & Henc & _ & _ & _ & _ & _ & _
        & Hdec & _ & _ & _ & _ & _ & _ & _ & Hsame).
  destruct (Hsame Hfull) as [-> Hsum].
  split; [exact Hv |]. split; [exact Hwords |]. split; [exact Hidx |].
  split; [exact Hfull |].
  exists encoded. split; [exact Henc |]. split; [exact Hdec | exact Hsum].
Defined.

(** ** Round trip *)

(** C1: for a seed of 128 bits, the phrase of a Mnemonikey that [New]
    returned decodes, without error, to the seed and the stored creation
    time of that Mnemonikey, which are the seed given to [New] and the
    requested time quantized. *)
Theorem roundtrip_New (WordList : list string) (KeySet : Type)
  (derivePGPKeySet : list Z -> Time -> KeyOptions -> KeySet + string)
  (s : Seed) (creation : Time) (opts : option KeyOptions)
  (mnk : Mnemonikey KeySet) :
  mnemonic.wordlist_ok WordList = true ->
  0 <= Value s < 2 ^ 128 ->
  EpochStart <= creation <= MaxCreationTime ->
  New derivePGPKeySet s creation opts = Ok mnk ->
  exists words,
    EncodeMnemonic WordList mnk = Some (Ok words)
    /\ DecodeMnemonic WordList words = Some (Some (seed mnk), keyCreationTime mnk, None)
    /\ seed mnk = s
    /\ keyCreationTime mnk = floorTime creation.
Proof.
  intros Hok Hs Hin Hnew.
  destruct (New_Ok_inv _ _ _ _ _ _ Hnew) as (_ & Hseed & Ht).
  assert (Hv : validKey mnk).
  { split; [rewrite Hseed; exact Hs |]. rewrite Ht. apply floorTime_inEpoch, Hin. }
  destruct (roundtrip_valid WordList Hok KeySet mnk Hv) as (words & Henc & _ & Hdec).
  exists words. split; [exact Henc |].
  split; [| split; assumption].
  rewrite Hdec. repeat f_equal.
  rewrite Ht. unfold floorTime at 1. fold (floorTime creation).
  pose proof (offsetOf_floorTime _ Hin) as Hoff.
  destruct (floorTime_inEpoch _ Hin) as [Hin' _].
  destruct (offsetOf_inEpoch _ Hin') as [Hoff' _].
  destruct (offsetOf_inEpoch _ Hin) as [Hoff'' _].
  rewrite <- Hoff', Hoff, Hoff''. reflexivity.
Qed.

Lemma roundtrip_New_witness :
  New Demo.derive Demo.seed0 Demo.requested None = Ok Demo.mnk
  /\ exists words,
       EncodeMnemonic Demo.WordList Demo.mnk = Some (Ok words)
       /\ DecodeMnemonic Demo.WordList words
          = Some (Some Demo.seed0, Demo.quantized, None).
Proof.
  assert (Hnew : New Demo.derive Demo.seed0 Demo.requested None = Ok Demo.mnk)
    by (vm_compute; reflexivity).
  split; [exact Hnew |].
  destruct (roundtrip_New Demo.WordList Demo.KeySet Demo.derive Demo.seed0
              Demo.requested None Demo.mnk) as (words & Henc & Hdec & _ & _).
  - vm_compute. reflexivity.
  - vm_compute. split; [discriminate | reflexivity].
  - vm_compute. split; discriminate.
  - exact Hnew.
  - exists words. split; [exact Henc | exact Hdec].
Defined.


(** ** What [EncodeMnemonic] leaves untouched *)

(** C9: on a heap where [mnk] points to a Mnemonikey, with its seed and the
    big integer of the seed, [EncodeMnemonic] computes what it computes from
    the values stored there, and leaves every object of the heap as it was:
    the Mnemonikey (its seed pointer and its creation time), the seed, and
    every big integer that existed before the call, the one of the seed
    among them; the payload is built in cells of its own.  A second call
    returns the same phrase.  For a seed of [EntropyBitCount] bits and a
    creation time within the epoch the call does return a phrase. *)
Theorem EncodeMnemonic_leaves_Mnemonikey (WordList : list string) (KeySet : Type)
  (h : Mem.heap KeySet) (mnk : Mem.loc) (this : Mem.Mnemonikey KeySet)
  (sd : Mem.Seed) (v : Z) :
  Mem.keys h !! mnk = Some this ->
  Mem.seeds h !! Mem.seed this = Some sd ->
  Mem.ints h !! Mem.Value sd = Some v ->
  exists h',
    Mem.EncodeMnemonic WordList mnk h
      = match EncodeMnemonic WordList (snapshot this v) with
        | Some r => Some (r, h')
        | None => None
        end
    /\ Mem.keys h' !! mnk = Some this
    /\ Mem.seeds h' !! Mem.seed this = Some sd
    /\ Mem.ints h' !! Mem.Value sd = Some v
    /\ Mem.keys h' = Mem.keys h
    /\ Mem.seeds h' = Mem.seeds h
    /\ (forall p w, Mem.ints h !! p = Some w -> Mem.ints h' !! p = Some w)
    /\ (forall r,
           Mem.EncodeMnemonic WordList mnk h = Some (r, h') ->
           exists h'', Mem.EncodeMnemonic WordList mnk h' = Some (r, h''))
    /\ (mnemonic.wordlist_ok WordList = true ->
        validKey (snapshot this v) ->
        exists words, Mem.EncodeMnemonic WordList mnk h = Some (Ok words, h')).
Proof.
  intros Hk Hs Hv.
  destruct (Mem_EncodeMnemonic_run WordList KeySet h mnk this sd v Hk Hs Hv)
    as (h' & (Hkeys & Hseeds & Hints) & Hrun).
  assert (Hk' : Mem.keys h' !! mnk = Some this) by (rewrite Hkeys; exact Hk).
  assert (Hs' : Mem.seeds h' !! Mem.seed this = Some sd) by (rewrite Hseeds; exact Hs).
  assert (Hv' : Mem.ints h' !! Mem.Value sd = Some v) by (apply Hints, Hv).
  exists h'. repeat (split; [assumption |]). split.
  - intros r Hr. rewrite Hrun in Hr.
    destruct (Mem_EncodeMnemonic_run WordList KeySet h' mnk this sd v Hk' Hs' Hv')
      as (h'' & _ & Hrun').
    destruct (EncodeMnemonic WordList (snapshot this v)) as [r' |]; [| discriminate].
    injection Hr as ->. exists h''. exact Hrun'.
  - intros Hok Hvalid.
    destruct (roundtrip_valid WordList Hok KeySet _ Hvalid) as (words & Henc & _).
    exists words. rewrite Hrun, Henc. reflexivity.
Qed.

Lemma EncodeMnemonic_leaves_Mnemonikey_witness :
  exists h',
    Mem.EncodeMnemonic Demo.WordList 5%positive Demo.heap = Some (Ok Demo.words, h')
    /\ Mem.ints h' !! 7%positive = Some (Value Demo.seed0)
    /\ Mem.keys h' = Mem.keys Demo.heap
    /\ Mem.seeds h' = Mem.seeds Demo.heap
    /\ exists h'', Mem.EncodeMnemonic Demo.WordList 5%positive h' = Some (Ok Demo.words, h'').
Proof.
  destruct (EncodeMnemonic_leaves_Mnemonikey Demo.WordList Demo.KeySet Demo.heap
              5%positive
              {| Mem.pgpKeySet := pgpKeySet Demo.mnk;
                 Mem.seed := 3%positive;
                 Mem.keyCreationTime := Demo.quantized |}
              {| Mem.Value := 7%positive |}
              (Value Demo.seed0))
    as (h' & Hrun & _ & _ & Hv & Hkeys & Hseeds & _ & Hagain & _).
  - vm_compute. reflexivity.
  - vm_compute. reflexivity.
  - vm_compute. reflexivity.
  - assert (Hr : EncodeMnemonic Demo.WordList
                   (snapshot {| Mem.pgpKeySet := pgpKeySet Demo.mnk;
                                Mem.seed := 3%positive;
                                Mem.keyCreationTime := Demo.quantized |}
                             (Value Demo.seed0))
                 = Some (Ok Demo.words)) by (vm_compute; reflexivity).
    rewrite Hr in Hrun.
    exists h'. repeat (split; [assumption |]). apply Hagain, Hrun.
Defined.

(** * Further properties *)

(** ** Strings *)

Module terminal_facts.
Import terminal.

Lemma length_append (a b : string) :
  String.length (a +:+ b) = (String.length a + String.length b)%nat.
Proof.
  induction a as [| c a IH]; [reflexivity |].
  change (S (String.length (a +:+ b)) = S (String.length a + String.length b)).
  rewrite IH. reflexivity.
Qed.

Lemma append_nil_r (a : string) : a +:+ EmptyString = a.
Proof.
  induction a as [| c a IH]; [reflexivity |].
  change (String c (a +:+ EmptyString) = String c a). rewrite IH. reflexivity.
Qed.

Lemma append_assoc (a b c : string) : (a +:+ b) +:+ c = a +:+ (b +:+ c).
Proof.
  induction a as [| x a IH]; [reflexivity |].
  change (String x ((a +:+ b) +:+ c) = String x (a +:+ (b +:+ c))).
  rewrite IH. reflexivity.
Qed.

Lemma length_zero (a : string) : String.length a = 0%nat -> a = EmptyString.
Proof. destruct a; [reflexivity | discriminate]. Qed.

Lemma append_eq_self (a t : string) : a +:+ t = a -> t = EmptyString.
Proof.
  intros H. apply length_zero. apply (f_equal String.length) in H.
  rewrite length_append in H. lia.
Qed.

Lemma repeat_string_length (n : nat) :
  String.length (repeat_string (String space EmptyString) n) = n.
Proof.
  induction n as [| n IH]; [reflexivity |].
  cbn [repeat_string]. rewrite length_append, IH. reflexivity.
Qed.

Lemma Repeat_space (indent : Z) :
  0 <= indent ->
  exists indentString,
    Repeat (String space EmptyString) indent = Some indentString
    /\ Z.of_nat (String.length indentString) = indent.
Proof.
  intros H. unfold Repeat. destruct (Z.ltb_spec indent 0); [lia |].
  eexists. split; [reflexivity |]. rewrite repeat_string_length. lia.
Qed.

Lemma Split_nonempty (s : string) (sep : ascii) : Split s sep <> [].
Proof.
  destruct s as [| c rest]; simpl; [discriminate |].
  destruct (Ascii.eqb c sep); [discriminate |].
  destruct (Split rest sep); discriminate.
Qed.

Lemma Join_cons (x : string) (rest : list string) (sep : string) :
  rest <> [] -> Join (x :: rest) sep = x +:+ sep +:+ Join rest sep.
Proof. destruct rest; [contradiction | reflexivity]. Qed.

(** Joining the pieces with the separator gives the string back. *)
Lemma Join_Split (s : string) (sep : ascii) :
  Join (Split s sep) (String sep EmptyString) = s.
Proof.
  induction s as [| c rest IH]; [reflexivity |].
  cbn [Split]. destruct (Ascii.eqb_spec c sep) as [-> | Hc].
  - rewrite Join_cons by apply Split_nonempty. rewrite IH. reflexivity.
  - pose proof (Split_nonempty rest sep) as Hne.
    destruct (Split rest sep) as [| piece pieces]; [contradiction |].
    destruct pieces as [| p ps].
    + cbn [Join] in *. rewrite IH. reflexivity.
    + rewrite Join_cons by discriminate. rewrite Join_cons in IH by discriminate.
      rewrite <- IH. reflexivity.
Qed.

Lemma Join_app (l1 l2 : list string) (sep : string) :
  l1 <> [] -> l2 <> [] ->
  Join (l1 ++ l2) sep = Join l1 sep +:+ sep +:+ Join l2 sep.
Proof.
  intros H1 H2. induction l1 as [| x l1 IH]; [contradiction |].
  destruct l1 as [| y l1].
  - simpl app. rewrite Join_cons by assumption. reflexivity.
  - change ((x :: y :: l1) ++ l2) with (x :: ((y :: l1) ++ l2)).
    rewrite Join_cons by discriminate. rewrite IH by discriminate.
    rewrite (Join_cons x (y :: l1)) by discriminate.
    rewrite !append_assoc. reflexivity.
Qed.

Lemma concat_nonempty (groups : list (list string)) :
  groups <> [] -> Forall (fun g => g <> []) groups -> concat groups <> [].
Proof.
  intros Hne Hall. destruct groups as [| g groups]; [contradiction |].
  inversion Hall as [| ? ? Hg _]; subst. simpl.
  destruct g; [contradiction | discriminate].
Qed.

Lemma Join_concat (groups : list (list string)) (sep : string) :
  Forall (fun g => g <> []) groups ->
  Join (concat groups) sep = Join (map (fun g => Join g sep) groups) sep.
Proof.
  induction groups as [| g groups IH]; intros Hall; [reflexivity |].
  inversion Hall as [| ? ? Hg Hrest]; subst.
  assert (Hcase : groups = [] \/ groups <> [])
    by (destruct groups; [left; reflexivity | right; discriminate]).
  destruct Hcase as [-> | Hne].
  - cbn [concat map Join]. rewrite app_nil_r. reflexivity.
  - change (concat (g :: groups)) with (g ++ concat groups).
    change (map (fun g0 => Join g0 sep) (g :: groups))
      with (Join g sep :: map (fun g0 => Join g0 sep) groups).
    rewrite Join_app by (assumption || apply concat_nonempty; assumption).
    rewrite Join_cons by (destruct groups; [contradiction | discriminate]).
    rewrite (IH Hrest). reflexivity.
Qed.


Lemma len_append (a b : string) : len (a +:+ b) = len a + len b.
Proof. unfold len. rewrite length_append. lia. Qed.

Lemma Join_spaced (word : string) (rest : list string) :
  Join (word :: rest) (String space EmptyString) = word +:+ spaced rest.
Proof.
  revert word. induction rest as [| w rest IH]; intros word.
  - cbn [Join spaced]. rewrite append_nil_r. reflexivity.
  - rewrite Join_cons by discriminate. rewrite IH. reflexivity.
Qed.

Section Fill.

Variable indentString : string.
Variable maxWidth : Z.

(** [fill] uses up a first part of the words and leaves the rest; it uses
    up the first word when that one fits. *)
Lemma fill_consumed (words : list string) (line : string) :
  exists group,
    words = group ++ snd (fill indentString maxWidth line words)
    /\ fill indentString maxWidth line group
       = (fst (fill indentString maxWidth line words), [])
    /\ (forall word rest,
           words = word :: rest ->
           len line + len word + 1 <= maxWidth ->
           group <> []).
Proof.
  revert line. induction words as [| w words IH]; intros line.
  - exists []. repeat split; [discriminate].
  - cbn [fill]. fold (len line) (len w).
    destruct (Z.leb_spec (len line + len w + 1) maxWidth) as [Hfit | Hno].
    + destruct (IH ((if negb (String.eqb line indentString)
                     then line +:+ String space EmptyString else line) +:+ w))
        as (group & Hsplit & Hfill & _).
      exists (w :: group). split; [simpl; f_equal; exact Hsplit |].
      split; [| discriminate].
      cbn [fill]. fold (len line) (len w).
      destruct (Z.leb_spec (len line + len w + 1) maxWidth); [exact Hfill | lia].
    + exists []. split; [reflexivity |]. split; [reflexivity |].
      intros word rest [= <- <-] Hfit. lia.
Qed.

(** A line never grows beyond [maxWidth], unless it was longer before. *)
Lemma fill_length (words : list string) (line : string) :
  len (fst (fill indentString maxWidth line words)) <= Z.max (len line) maxWidth.
Proof.
  revert line. induction words as [| w words IH]; intros line.
  - simpl. lia.
  - cbn [fill]. fold (len line) (len w).
    destruct (Z.leb_spec (len line + len w + 1) maxWidth) as [Hfit | Hno];
      [| simpl; lia].
    etransitivity; [apply IH |].
    destruct (negb (String.eqb line indentString));
      rewrite !len_append; change (len (String space EmptyString)) with 1; lia.
Qed.

(** A line that starts with the indentation keeps it. *)
Lemma fill_indent (words : list string) (body : string) :
  exists body',
    fst (fill indentString maxWidth (indentString +:+ body) words)
    = indentString +:+ body'.
Proof.
  revert body. induction words as [| w words IH]; intros body.
  - exists body. reflexivity.
  - cbn [fill]. destruct (_ <=? _); [| exists body; reflexivity].
    destruct (negb _).
    + rewrite !append_assoc. apply IH.
    + rewrite append_assoc. apply IH.
Qed.

(** A word that does not fit behind the bare indentation is never used
    up. *)
Lemma fill_keeps (word : string) (words : list string) (line : string) :
  len indentString <= len line ->
  maxWidth < len indentString + len word + 1 ->
  In word words ->
  In word (snd (fill indentString maxWidth line words)).
Proof.
  intros Hline Hlong. revert line Hline.
  induction words as [| w words IH]; intros line Hline Hin; [contradiction |].
  cbn [fill]. fold (len line) (len w).
  destruct (Z.leb_spec (len line + len w + 1) maxWidth) as [Hfit | Hno];
    [| exact Hin].
  destruct Hin as [-> | Hin]; [lia |].
  apply IH; [| exact Hin].
  destruct (negb _); rewrite !len_append;
    try change (len (String space EmptyString)) with 1; unfold len in *; lia.
Qed.

(** The line of words that are not empty: the indentation, the first word,
    and every other word behind one space. *)
Lemma fill_spaced (group : list string) (body : string) :
  body <> EmptyString ->
  Forall (fun w => w <> EmptyString) group ->
  snd (fill indentString maxWidth (indentString +:+ body) group) = [] ->
  fst (fill indentString maxWidth (indentString +:+ body) group)
  = indentString +:+ body +:+ spaced group.
Proof.
  revert body. induction group as [| w group IH]; intros body Hbody Hall Hdone.
  - cbn [fill fst spaced]. rewrite append_nil_r. reflexivity.
  - inversion Hall as [| ? ? Hw Hrest]; subst.
    cbn [fill] in *. destruct (_ <=? _); [| discriminate].
    assert (Hne : String.eqb (indentString +:+ body) indentString = false).
    { apply String.eqb_neq. intros Heq. apply Hbody, (append_eq_self _ _ Heq). }
    rewrite Hne in *. cbn [negb] in *.
    replace (((indentString +:+ body) +:+ String space EmptyString) +:+ w)
      with (indentString +:+ ((body +:+ String space EmptyString) +:+ w)) in *
      by (rewrite !append_assoc; reflexivity).
    rewrite IH; [| | assumption | assumption].
    + cbn [spaced]. rewrite !append_assoc. reflexivity.
    + intros Heq. apply (f_equal String.length) in Heq.
      rewrite !length_append in Heq. simpl in Heq. lia.
Qed.

Lemma fill_Join (group : list string) :
  group <> [] ->
  Forall (fun w => w <> EmptyString) group ->
  snd (fill indentString maxWidth indentString group) = [] ->
  fst (fill indentString maxWidth indentString group)
  = indentString +:+ Join group (String space EmptyString).
Proof.
  intros Hne Hall Hdone. destruct group as [| w group]; [contradiction |].
  inversion Hall as [| ? ? Hw Hrest]; subst.
  rewrite Join_spaced. cbn [fill] in *. destruct (_ <=? _); [| discriminate].
  rewrite String.eqb_refl in *. cbn [negb] in *.
  apply fill_spaced; assumption.
Qed.

(** With words that all fit behind the indentation, the outer loop is done
    after one round per line, and the lines are the lines of groups that
    make up the words. *)
Lemma layout_groups (fuel : nat) (words lines : list string) :
  Forall (fun w => len indentString + len w + 1 <= maxWidth) words ->
  (length words <= fuel)%nat ->
  exists groups,
    layout fuel indentString maxWidth words lines
    = Some (lines ++ map (fun g => fst (fill indentString maxWidth indentString g)) groups)
    /\ concat groups = words
    /\ Forall (fun g => g <> []
                        /\ snd (fill indentString maxWidth indentString g) = []) groups.
Proof.
  revert words lines. induction fuel as [| fuel IH]; intros words lines Hfit Hfuel.
  - destruct words; [| simpl in Hfuel; lia].
    exists []. simpl. rewrite app_nil_r. repeat split. constructor.
  - destruct words as [| w words].
    + exists []. simpl. rewrite app_nil_r. repeat split. constructor.
    + cbn [layout].
      destruct (fill_consumed (w :: words) indentString) as (group & Hsplit & Hfill & Hhead).
      assert (Hgroup : group <> []).
      { apply (Hhead w words eq_refl). inversion Hfit; subst. assumption. }
      destruct (fill indentString maxWidth indentString (w :: words))
        as [line words'] eqn:Hrun.
      cbn [fst snd] in *.
      assert (Hlen : (length words' <= fuel)%nat).
      { apply (f_equal (@length string)) in Hsplit. rewrite length_app in Hsplit.
        simpl in Hsplit, Hfuel. destruct group; [contradiction |]. simpl in Hsplit. lia. }
      assert (Hfit' : Forall (fun w0 => len indentString + len w0 + 1 <= maxWidth) words').
      { rewrite Hsplit in Hfit. apply Forall_app in Hfit. tauto. }
      destruct (IH words' (lines ++ [line]) Hfit' Hlen) as (groups & Hrun' & Hcat & Hall).
      exists (group :: groups). split.
      { rewrite Hrun'. cbn [map]. rewrite Hfill. cbn [fst].
        rewrite <- app_assoc. reflexivity. }
      split; [simpl; rewrite Hcat; symmetry; exact Hsplit |].
      constructor; [| assumption]. rewrite Hfill. split; [assumption | reflexivity].
Qed.

(** With a word that does not fit behind the bare indentation, the outer
    loop is never done. *)
Lemma layout_diverges (word : string) (fuel : nat) (words lines : list string) :
  maxWidth < len indentString + len word + 1 ->
  In word words ->
  layout fuel indentString maxWidth words lines = None.
Proof.
  intros Hlong. revert words lines.
  induction fuel as [| fuel IH]; intros words lines Hin.
  - destruct words; [contradiction | reflexivity].
  - destruct words as [| w words]; [contradiction |].
    cbn [layout].
    pose proof (fill_keeps word (w :: words) indentString ltac:(lia) Hlong Hin) as Hkept.
    destruct (fill indentString maxWidth indentString (w :: words)) as [line words'].
    apply IH. exact Hkept.
Qed.

End Fill.

End terminal_facts.

(** ** Construction, decoding and recovery *)

Lemma New_Ok_full (KeySet : Type)
  (derivePGPKeySet : list Z -> Time -> KeyOptions -> KeySet + string)
  (s : Seed) (creation : Time) (opts : option KeyOptions) (mnk : Mnemonikey KeySet) :
  New derivePGPKeySet s creation opts = Ok mnk ->
  expiryAllows creation (optionsOrZero opts)
  /\ inEpoch creation
  /\ seed mnk = s
  /\ keyCreationTime mnk = floorTime creation
  /\ derivePGPKeySet (Bytes s) (floorTime creation) (optionsOrZero opts)
     = inl (pgpKeySet mnk).
Proof.
  intros Hnew.
  destruct (New_Ok_inv _ _ _ _ _ _ Hnew) as (Hin & Hseed & Ht).
  assert (Hexp : expiryAllows creation (optionsOrZero opts)).
  { unfold New in Hnew. fold (optionsOrZero opts) in Hnew.
    unfold expiryAllows, IsZero, After in *.
    destruct (Z.eqb_spec (Expiry (optionsOrZero opts)) zeroTime); [left; assumption |].
    destruct (Z.ltb_spec (Expiry (optionsOrZero opts)) creation); [discriminate |].
    right. assumption. }
  repeat (split; [assumption |]).
  rewrite (New_inEpoch _ _ _ _ _ Hin Hexp) in Hnew. unfold keyed in Hnew.
  destruct (derivePGPKeySet (Bytes s) (floorTime creation) (optionsOrZero opts));
    [| discriminate].
  injection Hnew as <-. reflexivity.
Qed.

Lemma floorTime_boundary (creation : Time) :
  (floorTime creation - EpochStart) mod EpochIncrement = 0
  /\ floorTime (floorTime creation) = floorTime creation.
Proof.
  unfold floorTime. rewrite EpochIncrement_val.
  replace (EpochStart + (creation - EpochStart) / 1000000000 * 1000000000 - EpochStart)
    with ((creation - EpochStart) / 1000000000 * 1000000000) by lia.
  rewrite Z.mod_mul, Z.div_mul by lia. split; reflexivity.
Qed.

(** X1: a Mnemonikey that [New] returns keeps the seed it was given, its
    creation time lies within the epoch on an [EpochIncrement] boundary, at
    most one increment before the requested time, and its key set is what
    the builder derived for the seed bytes, this stored time (not the
    requested one) and the options. *)
Theorem New_invariant (KeySet : Type)
  (derivePGPKeySet : list Z -> Time -> KeyOptions -> KeySet + string)
  (s : Seed) (creation : Time) (opts : option KeyOptions) (mnk : Mnemonikey KeySet) :
  New derivePGPKeySet s creation opts = Ok mnk ->
  seed mnk = s
  /\ EpochStart <= keyCreationTime mnk <= MaxCreationTime
  /\ (keyCreationTime mnk - EpochStart) mod EpochIncrement = 0
  /\ keyCreationTime mnk <= creation < keyCreationTime mnk + EpochIncrement
  /\ derivePGPKeySet (Bytes s) (keyCreationTime mnk) (optionsOrZero opts)
     = inl (pgpKeySet mnk).
Proof.
  intros Hnew.
  destruct (New_Ok_full _ _ _ _ _ _ Hnew) as (_ & Hin & Hseed & Ht & Hks).
  rewrite Ht. split; [assumption |].
  split; [apply floorTime_inEpoch, Hin |].
  split; [apply floorTime_boundary |].
  split; [| assumption].
  unfold floorTime. rewrite EpochIncrement_val.
  pose proof (Z.div_mod (creation - EpochStart) 1000000000 ltac:(lia)).
  pose proof (Z.mod_pos_bound (creation - EpochStart) 1000000000 ltac:(lia)).
  lia.
Qed.

Lemma New_invariant_witness :
  seed Demo.mnk = Demo.seed0
  /\ EpochStart <= keyCreationTime Demo.mnk <= MaxCreationTime
  /\ keyCreationTime Demo.mnk <= Demo.requested
  /\ Demo.derive (Bytes Demo.seed0) (keyCreationTime Demo.mnk) zeroKeyOptions
     = inl (pgpKeySet Demo.mnk).
Proof.
  destruct (New_invariant Demo.KeySet Demo.derive Demo.seed0 Demo.requested None Demo.mnk)
    as (Hseed & Hin & _ & [Hle _] & Hks).
  - vm_compute. reflexivity.
  - repeat split; assumption.
Defined.

Lemma New_again (KeySet : Type)
  (derivePGPKeySet : list Z -> Time -> KeyOptions -> KeySet + string)
  (s : Seed) (creation : Time) (opts : option KeyOptions) (mnk : Mnemonikey KeySet) :
  New derivePGPKeySet s creation opts = Ok mnk ->
  New derivePGPKeySet (seed mnk) (keyCreationTime mnk) opts = Ok mnk.
Proof.
  intros Hnew.
  destruct (New_Ok_full _ _ _ _ _ _ Hnew) as (Hexp & Hin & Hseed & Ht & Hks).
  destruct (floorTime_inEpoch _ Hin) as [Hin' Hle].
  destruct (floorTime_boundary creation) as [_ Hidem].
  rewrite Ht, Hseed. rewrite New_inEpoch.
  - unfold keyed. rewrite Hidem, Hks. destruct mnk as [ks sd t]. simpl in *.
    subst. reflexivity.
  - assumption.
  - destruct Hexp as [Hz | Hle']; [left; assumption | right; lia].
Qed.

(** X2: constructing again from what a Mnemonikey stores (its seed, the
    time [CreatedAt] returns) with the same options returns the same
    Mnemonikey, key set included: the quantization is idempotent and the
    expiry that allowed the requested time allows the stored one. *)
Theorem New_from_stored (KeySet : Type)
  (derivePGPKeySet : list Z -> Time -> KeyOptions -> KeySet + string)
  (s : Seed) (creation : Time) (opts : option KeyOptions) (mnk : Mnemonikey KeySet) :
  New derivePGPKeySet s creation opts = Ok mnk ->
  New derivePGPKeySet (seed mnk) (CreatedAt mnk) opts = Ok mnk.
Proof. apply New_again. Qed.

Lemma New_from_stored_witness :
  New Demo.derive Demo.seed0 Demo.requested (Some Demo.expiresAtCreation)
    = Ok {| pgpKeySet := (Bytes Demo.seed0, Demo.quantized, Demo.expiresAtCreation);
            seed := Demo.seed0; keyCreationTime := Demo.quantized |}
  /\ New Demo.derive Demo.seed0 Demo.quantized (Some Demo.expiresAtCreation)
     = Ok {| pgpKeySet := (Bytes Demo.seed0, Demo.quantized, Demo.expiresAtCreation);
             seed := Demo.seed0; keyCreationTime := Demo.quantized |}.
Proof.
  assert (Hnew : New Demo.derive Demo.seed0 Demo.requested (Some Demo.expiresAtCreation)
                 = Ok {| pgpKeySet := (Bytes Demo.seed0, Demo.quantized,
                                       Demo.expiresAtCreation);
                         seed := Demo.seed0; keyCreationTime := Demo.quantized |})
    by (vm_compute; reflexivity).
  split; [exact Hnew |].
  apply (New_from_stored Demo.KeySet Demo.derive Demo.seed0 Demo.requested
           (Some Demo.expiresAtCreation) _ Hnew).
Defined.

Lemma unpacked_Ok (payloadBytes : list Z) (payloadInt : Z) (sd : option Seed)
  (creation : Time) :
  unpacked payloadBytes payloadInt = (sd, creation, None) ->
  sd = Some (NewSeed (payloadInt / 32 / 2 ^ CreationOffsetBitCount))
  /\ checksumOf payloadBytes = payloadInt mod 32
  /\ inEpoch creation
  /\ floorTime creation = creation.
Proof.
  unfold unpacked.
  destruct (Z.eqb_spec (checksumOf payloadBytes) (payloadInt mod 32)) as [Hc | _];
    [| discriminate].
  intros [= <- <-]. split; [reflexivity |]. split; [assumption |].
  pose proof (Z.mod_pos_bound (payloadInt / 32) (2 ^ CreationOffsetBitCount) eq_refl) as Hoff.
  set (off := (payloadInt / 32) mod 2 ^ CreationOffsetBitCount) in *.
  change (2 ^ CreationOffsetBitCount) with 1073741824 in Hoff.
  unfold inEpoch, floorTime. rewrite MaxCreationTime_val, EpochIncrement_val.
  change (2 ^ CreationOffsetBitCount) with 1073741824.
  split; [lia |].
  replace (EpochStart + off * 1000000000 - EpochStart) with (off * 1000000000) by lia.
  rewrite Z.div_mul by lia. reflexivity.
Qed.

(** What a decoding without error returned. *)
Lemma DecodeMnemonic_Ok_inv (WordList : list string) (words : list string)
  (sd : option Seed) (creation : Time) :
  DecodeMnemonic WordList words = Some (sd, creation, None) ->
  length words = 15%nat
  /\ (exists s, sd = Some s)
  /\ inEpoch creation
  /\ floorTime creation = creation.
Proof.
  rewrite DecodeMnemonic_total.
  destruct (negb (Z.of_nat (length words) =? MnemonicSize)) eqn:Hlen; [discriminate |].
  apply negb_false_iff, Z.eqb_eq in Hlen. unfold MnemonicSize in Hlen.
  destruct (mnemonic.DecodeMnemonic WordList words) as [indices | e]; [| discriminate].
  destruct (mnemonic.DecodeIndices indices) as [payloadInt | e]; [| discriminate].
  generalize (be_bytes 20 (payloadInt / 32)) as payloadBytes. intros payloadBytes.
  intros [= Hun]. destruct (unpacked_Ok _ _ _ _ Hun) as (-> & _ & Hin & Hfloor).
  split; [lia |]. split; [eexists; reflexivity |]. split; assumption.
Qed.

(** X3: a decoding without error carries a seed, and its creation time lies
    within the epoch on an [EpochIncrement] boundary, for every word table
    and every list of words: [New] accepts it as it is, without moving it,
    and never answers it with [ErrCreationTooLate] or
    [ErrCreationTooEarly]. *)
Theorem DecodeMnemonic_creation_in_epoch (WordList : list string) (KeySet : Type)
  (derivePGPKeySet : list Z -> Time -> KeyOptions -> KeySet + string)
  (words : list string) (sd : option Seed) (creation : Time) :
  DecodeMnemonic WordList words = Some (sd, creation, None) ->
  exists s,
    sd = Some s
    /\ EpochStart <= creation <= MaxCreationTime
    /\ (creation - EpochStart) mod EpochIncrement = 0
    /\ forall opts,
         New derivePGPKeySet s creation opts <> Err ErrCreationTooLate
         /\ New derivePGPKeySet s creation opts <> Err ErrCreationTooEarly
         /\ forall mnk,
              New derivePGPKeySet s creation opts = Ok mnk ->
              keyCreationTime mnk = creation.
Proof.
  intros Hdec.
  destruct (DecodeMnemonic_Ok_inv _ _ _ _ Hdec) as (_ & [s ->] & Hin & Hfloor).
  exists s. split; [reflexivity |]. split; [exact Hin |].
  split; [rewrite <- Hfloor; apply floorTime_boundary |].
  intros opts.
  assert (Hrange : After creation MaxCreationTime = false
                   /\ Before creation EpochStart = false).
  { unfold After, Before, inEpoch in *.
    destruct (Z.ltb_spec MaxCreationTime creation); [lia |].
    destruct (Z.ltb_spec creation EpochStart); [lia |]. split; reflexivity. }
  destruct Hrange as [Hlate Hearly].
  repeat split.
  - unfold New. fold (optionsOrZero opts). rewrite Hlate, Hearly.
    destruct (negb _ && _); [discriminate |].
    destruct derivePGPKeySet; discriminate.
  - unfold New. fold (optionsOrZero opts). rewrite Hlate, Hearly.
    destruct (negb _ && _); [discriminate |].
    destruct derivePGPKeySet; discriminate.
  - intros mnk Hnew. destruct (New_Ok_inv _ _ _ _ _ _ Hnew) as (_ & _ & Ht).
    rewrite Ht. exact Hfloor.
Qed.

Lemma DecodeMnemonic_creation_in_epoch_witness :
  DecodeMnemonic Demo.WordList Demo.words = Some (Some Demo.seed0, Demo.quantized, None)
  /\ EpochStart <= Demo.quantized <= MaxCreationTime
  /\ New Demo.derive Demo.seed0 Demo.quantized None <> Err ErrCreationTooLate.
Proof.
  assert (Hdec : DecodeMnemonic Demo.WordList Demo.words
                 = Some (Some Demo.seed0, Demo.quantized, None))
    by (vm_compute; reflexivity).
  destruct (DecodeMnemonic_creation_in_epoch Demo.WordList Demo.KeySet Demo.derive
              Demo.words (Some Demo.seed0) Demo.quantized Hdec)
    as (s & Hs & Hin & _ & Hnew).
  injection Hs as <-.
  split; [exact Hdec |]. split; [exact Hin |]. apply (Hnew None).
Defined.

(** X4: what [Recover] returns, for every word table, builder, list of words
    and options.  It does not panic.  An error of the decoding comes back as
    it is, before any key is derived.  After a decoding without error the
    only checks of [New] that can fail are the expiry check and the builder,
    their errors come back wrapped, and the Mnemonikey holds the decoded
    seed and exactly the decoded creation time, with the key set the builder
    derived for them. *)
Theorem Recover_outcome (WordList : list string) (KeySet : Type)
  (derivePGPKeySet : list Z -> Time -> KeyOptions -> KeySet + string)
  (words : list string) (opts : option KeyOptions) :
  (exists r, Recover WordList derivePGPKeySet words opts = Some r)
  /\ (forall sd creation err,
         DecodeMnemonic WordList words = Some (sd, creation, Some err) ->
         Recover WordList derivePGPKeySet words opts = Some (Err err))
  /\ (forall sd creation,
         DecodeMnemonic WordList words = Some (sd, creation, None) ->
         exists s,
           sd = Some s
           /\ Recover WordList derivePGPKeySet words opts =
                Some (if negb (IsZero (Expiry (optionsOrZero opts)))
                         && After creation (Expiry (optionsOrZero opts))
                      then
                        Err (Wrapped "failed to recover key from decoded mnemonic"
                                     ErrExpiryTooEarly)
                      else
                        match derivePGPKeySet (Bytes s) creation (optionsOrZero opts) with
                        | inl ks =>
                            Ok {| pgpKeySet := ks; seed := s;
                                  keyCreationTime := creation |}
                        | inr msg =>
                            Err (Wrapped "failed to recover key from decoded mnemonic"
                                         (ErrKeySet msg))
                        end)).
Proof.
  assert (Herr : forall sd creation err,
             DecodeMnemonic WordList words = Some (sd, creation, Some err) ->
             Recover WordList derivePGPKeySet words opts = Some (Err err)).
  { intros sd creation err Hdec. unfold Recover. rewrite Hdec.
    destruct sd; reflexivity. }
  assert (Hok : forall sd creation,
             DecodeMnemonic WordList words = Some (sd, creation, None) ->
             exists s,
               sd = Some s
               /\ Recover WordList derivePGPKeySet words opts =
                    Some (if negb (IsZero (Expiry (optionsOrZero opts)))
                             && After creation (Expiry (optionsOrZero opts))
                          then
                            Err (Wrapped "failed to recover key from decoded mnemonic"
                                         ErrExpiryTooEarly)
                          else
                            match derivePGPKeySet (Bytes s) creation (optionsOrZero opts)
                            with
                            | inl ks =>
                                Ok {| pgpKeySet := ks; seed := s;
                                      keyCreationTime := creation |}
                            | inr msg =>
                                Err (Wrapped "failed to recover key from decoded mnemonic"
                                             (ErrKeySet msg))
                            end)).
  { intros sd creation Hdec.
    destruct (DecodeMnemonic_Ok_inv _ _ _ _ Hdec) as (_ & [s ->] & Hin & Hfloor).
    exists s. split; [reflexivity |].
    unfold Recover. rewrite Hdec.
    destruct (negb (IsZero (Expiry (optionsOrZero opts)))
              && After creation (Expiry (optionsOrZero opts))) eqn:Hexp.
    - unfold New. fold (optionsOrZero opts). rewrite Hexp. reflexivity.
    - assert (Hallow : expiryAllows creation (optionsOrZero opts)).
      { unfold expiryAllows, IsZero, After in *.
        destruct (Z.eqb_spec (Expiry (optionsOrZero opts)) zeroTime); [left; assumption |].
        destruct (Z.ltb_spec (Expiry (optionsOrZero opts)) creation); [discriminate |].
        right. assumption. }
      rewrite (New_inEpoch _ _ _ _ _ Hin Hallow), Hfloor. unfold keyed.
      destruct derivePGPKeySet; reflexivity. }
  split; [| split; assumption].
  destruct (DecodeMnemonic WordList words) as [r |] eqn:Hdec;
    [| rewrite DecodeMnemonic_total in Hdec; discriminate].
  destruct r as [[sd creation] [err |]].
  - rewrite (Herr _ _ _ eq_refl). eexists. reflexivity.
  - destruct (Hok _ _ eq_refl) as (s & _ & ->). eexists. reflexivity.
Qed.

Lemma Recover_outcome_witness :
  Recover Demo.WordList Demo.derive Demo.mistyped None = Some (Err ErrInvalidChecksum)
  /\ Recover Demo.WordList Demo.derive Demo.words (Some Demo.expiresAtCreation)
     = Some (Ok {| pgpKeySet := (Bytes Demo.seed0, Demo.quantized, Demo.expiresAtCreation);
                   seed := Demo.seed0; keyCreationTime := Demo.quantized |})
  /\ Recover Demo.WordList Demo.derive Demo.words
       (Some {| Name := "demo"; Email := "demo@example.org";
                Expiry := Demo.quantized - 1; Subkeys := [] |})
     = Some (Err (Wrapped "failed to recover key from decoded mnemonic"
                          ErrExpiryTooEarly)).
Proof.
  assert (Hdec : DecodeMnemonic Demo.WordList Demo.words
                 = Some (Some Demo.seed0, Demo.quantized, None))
    by (vm_compute; reflexivity).
  split; [| split].
  - destruct (Recover_outcome Demo.WordList Demo.KeySet Demo.derive Demo.mistyped None)
      as (_ & Herr & _).
    apply (Herr None zeroTime). vm_compute. reflexivity.
  - destruct (Recover_outcome Demo.WordList Demo.KeySet Demo.derive Demo.words
                (Some Demo.expiresAtCreation)) as (_ & _ & Hok).
    destruct (Hok _ _ Hdec) as (s & Hs & ->). injection Hs as <-.
    vm_compute. reflexivity.
  - destruct (Recover_outcome Demo.WordList Demo.KeySet Demo.derive Demo.words
                (Some {| Name := "demo"; Email := "demo@example.org";
                         Expiry := Demo.quantized - 1; Subkeys := [] |}))
      as (_ & _ & Hok).
    destruct (Hok _ _ Hdec) as (s & Hs & ->). injection Hs as <-.
    vm_compute. reflexivity.
Defined.

(** X5: the phrase of a Mnemonikey that [New] returned for a seed of 128
    bits recovers that very Mnemonikey, key set included, when [Recover] is
    given the same builder and the same options. *)
Theorem Recover_EncodeMnemonic (WordList : list string) (KeySet : Type)
  (derivePGPKeySet : list Z -> Time -> KeyOptions -> KeySet + string)
  (s : Seed) (creation : Time) (opts : option KeyOptions) (mnk : Mnemonikey KeySet) :
  mnemonic.wordlist_ok WordList = true ->
  0 <= Value s < 2 ^ EntropyBitCount ->
  New derivePGPKeySet s creation opts = Ok mnk ->
  exists words,
    EncodeMnemonic WordList mnk = Some (Ok words)
    /\ Recover WordList derivePGPKeySet words opts = Some (Ok mnk).
Proof.
  intros Hok Hs Hnew.
  destruct (New_Ok_full _ _ _ _ _ _ Hnew) as (_ & Hin & Hseed & Ht & _).
  assert (Hv : validKey mnk).
  { split; [rewrite Hseed; exact Hs |]. rewrite Ht. apply floorTime_inEpoch, Hin. }
  destruct (roundtrip_valid WordList Hok KeySet mnk Hv) as (words & Henc & _ & Hdec).
  exists words. split; [exact Henc |].
  unfold Recover. rewrite Hdec.
  destruct (floorTime_boundary creation) as [_ Hidem].
  rewrite Ht, Hidem, <- Ht. rewrite (New_again _ _ _ _ _ _ Hnew). reflexivity.
Qed.

Lemma Recover_EncodeMnemonic_witness :
  EncodeMnemonic Demo.WordList Demo.mnk = Some (Ok Demo.words)
  /\ Recover Demo.WordList Demo.derive Demo.words None = Some (Ok Demo.mnk).
Proof.
  destruct (Recover_EncodeMnemonic Demo.WordList Demo.KeySet Demo.derive Demo.seed0
              Demo.requested None Demo.mnk) as (words & Henc & Hrec).
  - vm_compute. reflexivity.
  - vm_compute. split; [discriminate | reflexivity].
  - vm_compute. reflexivity.
  - assert (Hw : EncodeMnemonic Demo.WordList Demo.mnk = Some (Ok Demo.words))
      by (vm_compute; reflexivity).
    rewrite Hw in Henc. injection Henc as <-. split; [exact Hw | exact Hrec].
Defined.



(** X7: for a creation time within the epoch and a seed value that is not
    negative, [EncodeMnemonic] panics (in [FillBytes]) exactly when the
    seed value needs more than 130 bits; below that, with a full word
    table, it returns 15 words and never the error of the word codec. *)
Theorem EncodeMnemonic_seed_bound (WordList : list string) (KeySet : Type)
  (mnk : Mnemonikey KeySet) :
  EpochStart <= keyCreationTime mnk <= MaxCreationTime ->
  0 <= Value (seed mnk) ->
  (EncodeMnemonic WordList mnk = None <-> 2 ^ 130 <= Value (seed mnk))
  /\ (mnemonic.wordlist_ok WordList = true ->
      Value (seed mnk) < 2 ^ 130 ->
      exists words,
        EncodeMnemonic WordList mnk = Some (Ok words)
        /\ length words = Z.to_nat MnemonicSize).
Proof.
  intros Hin Hseed.
  destruct (offsetOf_inEpoch _ Hin) as [_ Hoff].
  assert (Hw : creationOffsetOf mnk = offsetOf (keyCreationTime mnk)).
  { unfold creationOffsetOf. apply wrap_int64_id.
    change (2 ^ CreationOffsetBitCount) with 1073741824 in Hoff.
    unfold minInt64, maxInt64. lia. }
  rewrite <- Hw in Hoff.
  assert (Hu : unchecksummed mnk
               = Value (seed mnk) * 2 ^ CreationOffsetBitCount + creationOffsetOf mnk).
  { unfold unchecksummed. apply lor_shiftl_add; [discriminate | assumption]. }
  change (2 ^ CreationOffsetBitCount) with 1073741824 in *.
  rewrite EncodeMnemonic_stages. unfold fullPayload, encodeBytes.
  change (byteCount (EntropyBitCount + CreationOffsetBitCount)) with 20%nat.
  unfold FillBytes.
  assert (Hnonneg : 0 <= unchecksummed mnk) by (rewrite Hu; lia).
  rewrite Z.abs_eq by assumption.
  change (2 ^ (8 * Z.of_nat 20)) with (2 ^ 130 * 1073741824).
  generalize (be_bytes 20 (unchecksummed mnk)) as payloadBytes. intros payloadBytes.
  destruct (Z.ltb_spec (unchecksummed mnk) (2 ^ 130 * 1073741824)) as [Hfit | Hbig].
  - assert (Hv : Value (seed mnk) < 2 ^ 130) by (rewrite Hu in Hfit; lia).
    split; [split; [discriminate | lia] |].
    intros Hok _.
    set (payloadInt := Z.lor (Z.shiftl (unchecksummed mnk) ChecksumBitCount)
                             (checksumOf payloadBytes)).
    unfold phrase.
    destruct (mnemonic_facts.EncodeToMnemonic_valid WordList Hok
                (mnemonic.EncodeToIndices payloadInt totalBitCount)) as [words Hwords].
    { apply mnemonic_facts.indices_of_valid. reflexivity. }
    destruct (mnemonic_facts.DecodeMnemonic_EncodeToMnemonic WordList Hok _ _ Hwords)
      as [_ Hlen].
    exists words. rewrite Hwords. split; [reflexivity |].
    rewrite Hlen. apply mnemonic_facts.EncodeToIndices_length.
  - assert (Hv : 2 ^ 130 <= Value (seed mnk)) by (rewrite Hu in Hbig; lia).
    split; [split; [intros _; exact Hv | reflexivity] |].
    intros _ Hlt. lia.
Qed.

Lemma EncodeMnemonic_seed_bound_witness :
  EncodeMnemonic Demo.WordList
    {| pgpKeySet := pgpKeySet Demo.mnk;
       seed := {| Value := 2 ^ 130 |};
       keyCreationTime := Demo.quantized |} = None
  /\ exists words,
       EncodeMnemonic Demo.WordList Demo.mnk = Some (Ok words)
       /\ length words = 15%nat.
Proof.
  split.
  - apply (EncodeMnemonic_seed_bound Demo.WordList Demo.KeySet
             {| pgpKeySet := pgpKeySet Demo.mnk;
                seed := {| Value := 2 ^ 130 |};
                keyCreationTime := Demo.quantized |}).
    + vm_compute. split; discriminate.
    + vm_compute. discriminate.
    + vm_compute. discriminate.
  - apply (EncodeMnemonic_seed_bound Demo.WordList Demo.KeySet Demo.mnk).
    + vm_compute. split; discriminate.
    + vm_compute. discriminate.
    + vm_compute. reflexivity.
    + vm_compute. reflexivity.
Defined.

(** X8: of the phrases of 15 known words whose payload integers agree above
    the 5 checksum bits, at most one decodes: when one decodes without
    error, every other one fails with [ErrInvalidChecksum]. *)
Theorem checksum_singles_out (WordList : list string)
  (words words' : list string) (indices indices' : list Z) (payloadInt payloadInt' : Z)
  (sd : option Seed) (creation : Time) :
  length words = Z.to_nat MnemonicSize ->
  length words' = Z.to_nat MnemonicSize ->
  mnemonic.DecodeMnemonic WordList words = Ok indices ->
  mnemonic.DecodeIndices indices = Ok payloadInt ->
  mnemonic.DecodeMnemonic WordList words' = Ok indices' ->
  mnemonic.DecodeIndices indices' = Ok payloadInt' ->
  Z.shiftr payloadInt' ChecksumBitCount = Z.shiftr payloadInt ChecksumBitCount ->
  payloadInt' <> payloadInt ->
  DecodeMnemonic WordList words = Some (sd, creation, None) ->
  DecodeMnemonic WordList words' = Some (None, zeroTime, Some ErrInvalidChecksum).
Proof.
  intros Hlen Hlen' Hwords Hidx Hwords' Hidx' Hupper Hdiff Hdec.
  destruct (DecodeMnemonic_payload WordList _ _ _ Hlen Hwords Hidx) as [_ Hrun].
  destruct (DecodeMnemonic_payload WordList _ _ _ Hlen' Hwords' Hidx') as [_ Hrun'].
  rewrite !Z.shiftr_div_pow2 in Hupper by discriminate.
  change (2 ^ ChecksumBitCount) with 32 in Hupper.
  rewrite Hrun', Hupper. rewrite Hrun in Hdec. clear Hrun Hrun'.
  revert Hdec. generalize (be_bytes 20 (payloadInt / 32)) as payloadBytes.
  intros payloadBytes [= Hun].
  destruct (unpacked_Ok _ _ _ _ Hun) as (_ & Hsum & _).
  unfold unpacked.
  destruct (Z.eqb_spec (checksumOf payloadBytes) (payloadInt' mod 32)) as [Hsame | _];
    [| reflexivity].
  exfalso. apply Hdiff.
  rewrite (Z.div_mod payloadInt 32), (Z.div_mod payloadInt' 32) by lia.
  rewrite Hupper, <- Hsame, <- Hsum. reflexivity.
Qed.

Lemma checksum_singles_out_witness :
  DecodeMnemonic Demo.WordList Demo.words = Some (Some Demo.seed0, Demo.quantized, None)
  /\ DecodeMnemonic Demo.WordList Demo.mistyped
     = Some (None, zeroTime, Some ErrInvalidChecksum).
Proof.
  assert (Hdec : DecodeMnemonic Demo.WordList Demo.words
                 = Some (Some Demo.seed0, Demo.quantized, None))
    by (vm_compute; reflexivity).
  split; [exact Hdec |].
  apply (checksum_singles_out Demo.WordList Demo.words Demo.mistyped
           Demo.indices
           [2; 564; 691; 1574; 1401; 1519; 9; 209; 719; 154; 1510; 1980; 941; 1844; 683]
           Demo.payload (Demo.payload + 1) (Some Demo.seed0) Demo.quantized).
  - reflexivity.
  - reflexivity.
  - vm_compute. reflexivity.
  - vm_compute. reflexivity.
  - vm_compute. reflexivity.
  - vm_compute. reflexivity.
  - vm_compute. reflexivity.
  - vm_compute. discriminate.
  - exact Hdec.
Defined.

Section Layout.

Import terminal.

(** The indentation [justifyWidth] builds for an indent that is not
    negative. *)
Lemma indentation (indent : Z) :
  0 <= indent ->
  Repeat (String space EmptyString) indent
  = Some (repeat_string (String space EmptyString) (Z.to_nat indent))
  /\ len (repeat_string (String space EmptyString) (Z.to_nat indent)) = indent.
Proof.
  intros Hind. unfold Repeat.
  destruct (Z.ltb_spec indent 0); [lia |].
  split; [reflexivity |].
  unfold len. rewrite terminal_facts.repeat_string_length. lia.
Qed.

(** When every word is shorter than the width, the lines of [justifyWidth]
    are what [fill] makes of consecutive groups of the words. *)
Lemma justifyWidth_groups (fuel : nat) (indent width : Z) (text : string) :
  0 <= indent ->
  indent + width <= maxInt64 ->
  Forall (fun w => len w < width) (Split text space) ->
  (length (Split text space) <= fuel)%nat ->
  exists groups,
    justifyWidth fuel indent width text
    = Returns
        (Join
           (map (fun g =>
                   fst (fill (repeat_string (String space EmptyString) (Z.to_nat indent))
                          (indent + width)
                          (repeat_string (String space EmptyString) (Z.to_nat indent)) g))
              groups)
           newline)
    /\ concat groups = Split text space
    /\ Forall (fun g =>
                 g <> []
                 /\ snd (fill (repeat_string (String space EmptyString) (Z.to_nat indent))
                           (indent + width)
                           (repeat_string (String space EmptyString) (Z.to_nat indent)) g)
                    = [])
         groups.
Proof.
  intros Hind Hmax Hwords Hfuel.
  destruct (indentation indent Hind) as [Hrep Hlen].
  assert (Hwidth : 0 < width).
  { destruct (Split text space) as [| w ws] eqn:Hsplit.
    - exfalso. exact (terminal_facts.Split_nonempty _ _ Hsplit).
    - inversion Hwords as [| ? ? Hw _]; subst. unfold len in Hw. lia. }
  assert (Hwrap : wrap_int64 (indent + width) = indent + width).
  { apply wrap_int64_id. unfold minInt64. lia. }
  unfold justifyWidth. rewrite Hrep, Hwrap.
  destruct (Z.eqb_spec (indent + width) 0); [lia |].
  destruct (Z.ltb_spec (Z.quot (Z.of_nat (String.length text)) (indent + width) + 1) 0)
    as [Hneg | _].
  { assert (0 <= Z.quot (Z.of_nat (String.length text)) (indent + width))
      by (apply Z.quot_pos; lia).
    lia. }
  destruct (terminal_facts.layout_groups
              (repeat_string (String space EmptyString) (Z.to_nat indent))
              (indent + width) fuel (Split text space) [])
    as (groups & Hlay & Hcat & Hgroups).
  - eapply Forall_impl; [exact Hwords |]. intros w Hw. cbv beta in *. lia.
  - exact Hfuel.
  - exists groups. rewrite Hlay. cbn [app]. auto.
Qed.

(** A word that is not shorter than the width keeps [justifyWidth] from
    returning: it panics or its outer loop runs for ever. *)
Lemma justifyWidth_stuck (indent width : Z) (text word : string) :
  minInt64 <= indent + width <= maxInt64 ->
  In word (Split text space) ->
  width <= len word ->
  (forall fuel, justifyWidth fuel indent width text = Panics)
  \/ (forall fuel, justifyWidth fuel indent width text = OutOfFuel).
Proof.
  intros Hrange Hin Hlong.
  assert (Hwrap : wrap_int64 (indent + width) = indent + width)
    by (apply wrap_int64_id; exact Hrange).
  unfold justifyWidth. rewrite Hwrap.
  destruct (Z.ltb_spec indent 0) as [Hneg | Hind].
  { left. intros fuel. unfold Repeat.
    destruct (Z.ltb_spec indent 0); [reflexivity | lia]. }
  destruct (indentation indent Hind) as [-> Hlen].
  destruct (indent + width =? 0); [left; intros fuel; reflexivity |].
  destruct (Z.quot (Z.of_nat (String.length text)) (indent + width) + 1 <? 0);
    [left; intros fuel; reflexivity |].
  right. intros fuel.
  rewrite (terminal_facts.layout_diverges _ _ word); [reflexivity | lia | exact Hin].
Qed.

(** The groups of a list of words are not more than the words. *)
Lemma groups_count (groups : list (list string)) :
  Forall (fun g => g <> []) groups ->
  (length groups <= length (concat groups))%nat.
Proof.
  induction 1 as [| g gs Hg _ IH]; [reflexivity |].
  cbn [concat length]. rewrite length_app.
  destruct g; [contradiction |]. cbn [length]. lia.
Qed.

End Layout.

(** X9: [justifyWidth] returns when the indent is not negative, indent plus
    width fits an [int], every word of the text is shorter than the width
    and the fuel covers one line per word.  The result is lines joined by
    newlines; there is at least one line and at most one per word, every
    line starts with the indentation and is at most indent plus width
    long. *)
Theorem justifyWidth_returns (fuel : nat) (indent width : Z) (text : string) :
  0 <= indent ->
  indent + width <= maxInt64 ->
  Forall (fun w => len w < width) (terminal.Split text terminal.space) ->
  (length (terminal.Split text terminal.space) <= fuel)%nat ->
  exists lines,
    terminal.justifyWidth fuel indent width text
    = terminal.Returns (terminal.Join lines terminal.newline)
    /\ lines <> []
    /\ (length lines <= length (terminal.Split text terminal.space))%nat
    /\ Forall (fun line =>
                 len line <= indent + width
                 /\ exists body,
                      line = terminal.repeat_string (String terminal.space EmptyString)
                               (Z.to_nat indent) +:+ body)
         lines.
Proof.
  intros Hind Hmax Hwords Hfuel.
  destruct (justifyWidth_groups fuel indent width text Hind Hmax Hwords Hfuel)
    as (groups & Hrun & Hcat & Hgroups).
  destruct (indentation indent Hind) as [_ Hlen].
  assert (Hne : Forall (fun g : list string => g <> []) groups).
  { eapply Forall_impl; [exact Hgroups |]. intros g [Hg _]. exact Hg. }
  eexists. split; [exact Hrun |]. split; [| split].
  - destruct groups as [| g gs]; [| discriminate].
    exfalso. exact (terminal_facts.Split_nonempty _ _ (eq_sym Hcat)).
  - rewrite length_map, <- Hcat. apply groups_count. exact Hne.
  - apply Forall_map. apply Forall_forall. intros g _. cbv beta. split.
    + pose proof (terminal_facts.fill_length
                    (terminal.repeat_string (String terminal.space EmptyString)
                       (Z.to_nat indent))
                    (indent + width) g
                    (terminal.repeat_string (String terminal.space EmptyString)
                       (Z.to_nat indent))) as Hfill.
      assert (0 < width).
      { destruct (terminal.Split text terminal.space) as [| w ws] eqn:Hsplit.
        - exfalso. exact (terminal_facts.Split_nonempty _ _ Hsplit).
        - inversion Hwords as [| ? ? Hw _]; subst. unfold len in Hw. lia. }
      lia.
    + destruct (terminal_facts.fill_indent
                  (terminal.repeat_string (String terminal.space EmptyString)
                     (Z.to_nat indent))
                  (indent + width) g EmptyString) as [body Hbody].
      rewrite terminal_facts.append_nil_r in Hbody. exists body. exact Hbody.
Qed.

Lemma justifyWidth_returns_witness :
  exists lines,
    terminal.justifyWidth 7 2 10 "the quick brown fox jumps over it"
    = terminal.Returns (terminal.Join lines terminal.newline)
    /\ lines <> []
    /\ (length lines <= 7)%nat
    /\ Forall (fun line =>
                 len line <= 12
                 /\ exists body, line = "  " +:+ body)
         lines.
Proof.
  apply (justifyWidth_returns 7 2 10 "the quick brown fox jumps over it").
  - lia.
  - vm_compute. discriminate.
  - apply Forall_forall. intros w Hw. apply list_elem_of_In in Hw.
    vm_compute in Hw.
    repeat (destruct Hw as [<- | Hw]; [vm_compute; reflexivity |]).
    destruct Hw.
  - vm_compute. lia.
Defined.

(** X10: a word of the text that is not shorter than the width keeps
    [justifyWidth] from returning, whatever the indent: it panics, or the
    outer loop adds lines for ever without using up the word. *)
Theorem justifyWidth_long_word (indent width : Z) (text word : string) :
  minInt64 <= indent + width <= maxInt64 ->
  In word (terminal.Split text terminal.space) ->
  width <= len word ->
  (forall fuel, terminal.justifyWidth fuel indent width text = terminal.Panics)
  \/ (forall fuel, terminal.justifyWidth fuel indent width text = terminal.OutOfFuel).
Proof.
  exact (justifyWidth_stuck indent width text word).
Qed.

Lemma justifyWidth_long_word_witness :
  terminal.justifyWidth 1000 2 5 "the quick brown fox jumps over it"
  = terminal.OutOfFuel.
Proof.
  destruct (justifyWidth_long_word 2 5 "the quick brown fox jumps over it" "quick")
    as [Hpanics | Hloops].
  - vm_compute. split; discriminate.
  - vm_compute. right. left. reflexivity.
  - vm_compute. discriminate.
  - specialize (Hpanics 0%nat). vm_compute in Hpanics. discriminate.
  - apply Hloops.
Defined.

(** X11: [justifyWidth] keeps the text.  When no word of the text is empty
    (no space at either end, no two spaces in a row, the text not empty)
    and every word is shorter than the width, the lines are the indentation
    followed by a body each, and the bodies joined by single spaces are the
    text. *)
Theorem justifyWidth_keeps_text (fuel : nat) (indent width : Z) (text : string) :
  0 <= indent ->
  indent + width <= maxInt64 ->
  Forall (fun w => w <> EmptyString /\ len w < width)
    (terminal.Split text terminal.space) ->
  (length (terminal.Split text terminal.space) <= fuel)%nat ->
  exists bodies,
    terminal.justifyWidth fuel indent width text
    = terminal.Returns
        (terminal.Join
           (map (fun body =>
                   terminal.repeat_string (String terminal.space EmptyString)
                     (Z.to_nat indent) +:+ body)
              bodies)
           terminal.newline)
    /\ terminal.Join bodies (String terminal.space EmptyString) = text.
Proof.
  intros Hind Hmax Hwords Hfuel.
  destruct (justifyWidth_groups fuel indent width text Hind Hmax) as
    (groups & Hrun & Hcat & Hgroups).
  { eapply Forall_impl; [exact Hwords |]. intros w [_ Hw]. exact Hw. }
  { exact Hfuel. }
  exists (map (fun g => terminal.Join g (String terminal.space EmptyString)) groups).
  split.
  - rewrite Hrun. f_equal. f_equal. rewrite map_map.
    apply map_ext_in. intros g Hg.
    rewrite Forall_forall in Hgroups. destruct (Hgroups g) as [Hne Hall].
    { apply list_elem_of_In. exact Hg. }
    apply terminal_facts.fill_Join; [exact Hne | | exact Hall].
    apply Forall_forall. intros w Hw.
    rewrite Forall_forall in Hwords. apply Hwords.
    rewrite <- Hcat. apply list_elem_of_In. apply in_concat. exists g.
    split; [exact Hg | apply list_elem_of_In; exact Hw].
  - rewrite <- terminal_facts.Join_concat.
    + rewrite Hcat. apply terminal_facts.Join_Split.
    + eapply Forall_impl; [exact Hgroups |]. intros g [Hg _]. exact Hg.
Qed.

Lemma justifyWidth_keeps_text_witness :
  exists bodies,
    terminal.justifyWidth 7 2 10 "the quick brown fox jumps over it"
    = terminal.Returns
        (terminal.Join (map (fun body => "  " +:+ body) bodies) terminal.newline)
    /\ terminal.Join bodies " " = "the quick brown fox jumps over it"%string.
Proof.
  apply (justifyWidth_keeps_text 7 2 10 "the quick brown fox jumps over it").
  - lia.
  - vm_compute. discriminate.
  - apply Forall_forall. intros w Hw. apply list_elem_of_In in Hw.
    vm_compute in Hw.
    repeat (destruct Hw as [<- | Hw];
            [split; [discriminate | vm_compute; reflexivity] |]).
    destruct Hw.
  - vm_compute. lia.
Defined.

(** Four fifths of a width that is not negative, as the callers of
    [justifyWidth] compute it on [int]. *)
Lemma four_fifths (a : Z) :
  0 <= a -> a * 4 <= maxInt64 ->
  wrap_int64 (Z.quot (wrap_int64 (a * 4)) 5) = a * 4 / 5
  /\ 0 <= a * 4 / 5 <= a.
Proof.
  intros Ha Hmax.
  assert (Hdiv : 0 <= a * 4 / 5 <= a).
  { split; [apply Z.div_pos; lia |].
    apply Z.div_le_upper_bound; lia. }
  split; [| exact Hdiv].
  rewrite (wrap_int64_id (a * 4)) by (unfold minInt64; lia).
  rewrite Z.quot_div_nonneg by lia.
  apply wrap_int64_id. unfold minInt64. lia.
Qed.

(** The lines [fill] makes are not longer than the maximal width, when the
    indentation is not. *)
Lemma fill_lines_bound (indentString : string) (maxWidth : Z)
  (groups : list (list string)) :
  len indentString <= maxWidth ->
  Forall (fun line => len line <= maxWidth)
    (map (fun g => fst (terminal.fill indentString maxWidth indentString g)) groups).
Proof.
  intros Hind. apply Forall_map. apply Forall_forall. intros g _. cbv beta.
  pose proof (terminal_facts.fill_length indentString maxWidth g indentString).
  lia.
Qed.

(** X12: on a terminal that reports fewer than 10 columns,
    [justifyOptionDescription] does not return, whatever the description:
    four fifths of the columns left of the option indent is no width a
    word is shorter than. *)
Theorem justifyOptionDescription_narrow (termWidth height : Z) (description : string) :
  0 <= termWidth < 10 ->
  (forall fuel,
      terminal.justifyOptionDescription fuel (Some (termWidth, height)) description
      = terminal.Panics)
  \/ (forall fuel,
         terminal.justifyOptionDescription fuel (Some (termWidth, height)) description
         = terminal.OutOfFuel).
Proof.
  intros Hnarrow.
  unfold terminal.justifyOptionDescription, terminal.getTerminalSize,
    terminal.flagSetOptionDefaultIndent.
  assert (Hwidth : exists width,
             wrap_int64 (Z.quot (wrap_int64 (wrap_int64 (termWidth - 8) * 4)) 5) = width
             /\ -6 <= width <= 0).
  { eexists. split; [reflexivity |].
    assert (Hcases : termWidth = 0 \/ termWidth = 1 \/ termWidth = 2 \/ termWidth = 3
                     \/ termWidth = 4 \/ termWidth = 5 \/ termWidth = 6
                     \/ termWidth = 7 \/ termWidth = 8 \/ termWidth = 9) by lia.
    repeat (destruct Hcases as [-> | Hcases]; [vm_compute; split; discriminate |]).
    subst. vm_compute. split; discriminate. }
  destruct Hwidth as (width & -> & Hwidth).
  destruct (terminal.Split description terminal.space) as [| word rest] eqn:Hsplit.
  { exfalso. exact (terminal_facts.Split_nonempty _ _ Hsplit). }
  apply (justifyWidth_stuck 0 width description word).
  - unfold minInt64, maxInt64. lia.
  - rewrite Hsplit. left. reflexivity.
  - unfold len. lia.
Qed.

Lemma justifyOptionDescription_narrow_witness :
  terminal.justifyOptionDescription 1000 (Some (0, 0)) "help"
  = terminal.OutOfFuel
  /\ terminal.justifyOptionDescription 1000 (Some (9, 24)) "print the version"
     = terminal.Panics.
Proof.
  split.
  - destruct (justifyOptionDescription_narrow 0 0 "help")
      as [Hpanics | Hloops].
    + lia.
    + specialize (Hpanics 0%nat). vm_compute in Hpanics. discriminate.
    + apply Hloops.
  - destruct (justifyOptionDescription_narrow 9 24 "print the version")
      as [Hpanics | Hloops].
    + lia.
    + apply Hpanics.
    + specialize (Hloops 0%nat). vm_compute in Hloops. discriminate.
Defined.

(** X13: where the terminal (or the fallback of 75 columns, when its size
    cannot be read) has at least 10 columns and every word of the
    description fits four fifths of the columns left of the option indent
    with one column to spare, [justifyOptionDescription] returns lines
    joined by newlines, not indented, none longer than four fifths of those
    columns. *)
Theorem justifyOptionDescription_lines (fuel : nat) (GetSize : option (Z * Z))
  (description : string) (termWidth height : Z) :
  terminal.getTerminalSize GetSize = (termWidth, height) ->
  10 <= termWidth ->
  termWidth * 4 <= maxInt64 ->
  Forall (fun w => 5 * (len w + 1) <= 4 * (termWidth - terminal.flagSetOptionDefaultIndent))
    (terminal.Split description terminal.space) ->
  (length (terminal.Split description terminal.space) <= fuel)%nat ->
  exists lines,
    terminal.justifyOptionDescription fuel GetSize description
    = terminal.Returns (terminal.Join lines terminal.newline)
    /\ Forall (fun line =>
                 5 * len line <= 4 * (termWidth - terminal.flagSetOptionDefaultIndent))
         lines.
Proof.
  intros Hsize Hwide Hmax Hwords Hfuel.
  unfold terminal.justifyOptionDescription. rewrite Hsize.
  unfold terminal.flagSetOptionDefaultIndent in *.
  rewrite (wrap_int64_id (termWidth - 8)) by (unfold minInt64; lia).
  destruct (four_fifths (termWidth - 8)) as [-> Hwidth]; [lia | lia |].
  destruct (justifyWidth_groups fuel 0 ((termWidth - 8) * 4 / 5) description)
    as (groups & Hrun & _ & _).
  - lia.
  - lia.
  - eapply Forall_impl; [exact Hwords |]. intros w Hw. cbv beta in Hw.
    assert (len w + 1 <= (termWidth - 8) * 4 / 5)
      by (apply Z.div_le_lower_bound; lia).
    lia.
  - exact Hfuel.
  - eexists. split; [exact Hrun |].
    eapply Forall_impl; [apply fill_lines_bound |].
    + change (len (terminal.repeat_string (String terminal.space EmptyString)
                     (Z.to_nat 0))) with 0. lia.
    + intros line Hline. cbv beta in Hline.
      pose proof (Z.mul_div_le ((termWidth - 8) * 4) 5). lia.
Qed.

Lemma justifyOptionDescription_lines_witness :
  exists lines,
    terminal.justifyOptionDescription 3 None "print the version"
    = terminal.Returns (terminal.Join lines terminal.newline)
    /\ Forall (fun line => 5 * len line <= 4 * (75 - 8)) lines.
Proof.
  apply (justifyOptionDescription_lines 3 None "print the version" 75 30).
  - reflexivity.
  - lia.
  - vm_compute. discriminate.
  - apply Forall_forall. intros w Hw. apply list_elem_of_In in Hw.
    vm_compute in Hw.
    repeat (destruct Hw as [<- | Hw]; [vm_compute; discriminate |]).
    destruct Hw.
  - vm_compute. lia.
Defined.

(** X14: [justifyTerminalWidth] with an indent that is not negative, on a
    terminal of at least 2 columns (or the fallback of 75), where every
    word fits four fifths of the columns with one to spare: it returns
    lines joined by newlines, and the lines are at most the indent plus
    four fifths of the columns long, the indent coming on top of the four
    fifths. *)
Theorem justifyTerminalWidth_lines (fuel : nat) (GetSize : option (Z * Z))
  (indent : Z) (text : string) (termWidth height : Z) :
  terminal.getTerminalSize GetSize = (termWidth, height) ->
  0 <= indent ->
  2 <= termWidth ->
  termWidth * 4 <= maxInt64 ->
  indent + termWidth <= maxInt64 ->
  Forall (fun w => 5 * (len w + 1) <= 4 * termWidth)
    (terminal.Split text terminal.space) ->
  (length (terminal.Split text terminal.space) <= fuel)%nat ->
  exists lines,
    terminal.justifyTerminalWidth fuel GetSize indent text
    = terminal.Returns (terminal.Join lines terminal.newline)
    /\ Forall (fun line => 5 * (len line - indent) <= 4 * termWidth) lines.
Proof.
  intros Hsize Hind Hwide Hmax Hsum Hwords Hfuel.
  unfold terminal.justifyTerminalWidth. rewrite Hsize.
  destruct (four_fifths termWidth) as [-> Hwidth]; [lia | lia |].
  destruct (indentation indent Hind) as [_ Hlen].
  destruct (justifyWidth_groups fuel indent (termWidth * 4 / 5) text)
    as (groups & Hrun & _ & _).
  - exact Hind.
  - lia.
  - eapply Forall_impl; [exact Hwords |]. intros w Hw. cbv beta in Hw.
    assert (len w + 1 <= termWidth * 4 / 5)
      by (apply Z.div_le_lower_bound; lia).
    lia.
  - exact Hfuel.
  - eexists. split; [exact Hrun |].
    eapply Forall_impl; [apply fill_lines_bound |].
    + rewrite Hlen. lia.
    + intros line Hline. cbv beta in Hline.
      pose proof (Z.mul_div_le (termWidth * 4) 5). lia.
Qed.

Lemma justifyTerminalWidth_lines_witness :
  exists lines,
    terminal.justifyTerminalWidth 7 (Some (20, 24)) 6
      "the quick brown fox jumps over it"
    = terminal.Returns (terminal.Join lines terminal.newline)
    /\ Forall (fun line => 5 * (len line - 6) <= 4 * 20) lines.
Proof.
  apply (justifyTerminalWidth_lines 7 (Some (20, 24)) 6
           "the quick brown fox jumps over it" 20 24).
  - reflexivity.
  - lia.
  - lia.
  - vm_compute. discriminate.
  - vm_compute. discriminate.
  - apply Forall_forall. intros w Hw. apply list_elem_of_In in Hw.
    vm_compute in Hw.
    repeat (destruct Hw as [<- | Hw]; [vm_compute; discriminate |]).
    destruct Hw.
  - vm_compute. lia.
Defined.
